(** * Lexer and recursive-descent parser of the S-expression front end

    A shallow embedding of [Praktikum 4/A4_4/lexer.py] and
    [Praktikum 4/A4_4/parser.py].

    - A Python [str] is a list of Unicode code points ([char := N]).
    - The mutable [Lexer] and [Parser] objects become records that are
      passed explicitly from call to call.
    - Exceptions ([LexerError], [ParserError]) are the [Raise] outcome of
      a small error monad.
    - Every [while] loop, and the recursion of [parse_expr], is a fixpoint
      over a budget; running out of budget is the third outcome
      [OutOfFuel].  [next_token] and [tokenize] supply a budget of their
      own and never produce it ([next_token_defined],
      [tokenize_terminates]); the parser takes its budget as an argument,
      a larger one never changes a result ([parse_text_enough]) and one
      above the length of the text is enough ([parse_text_defined]). *)

From Stdlib Require Import String Ascii NArith ZArith Bool Arith Lia List.
Import ListNotations.

(** ** Characters and strings *)

Definition char := N.

Definition ch (a : ascii) : char := N_of_ascii a.

Definition str (s : string) : list char := map ch (list_ascii_of_string s).

(** [a == b] on Python strings. *)
Fixpoint str_eqb (a b : list char) : bool :=
  match a, b with
  | [], [] => true
  | x :: a', y :: b' => N.eqb x y && str_eqb a' b'
  | _, _ => false
  end.

Definition NUL : char := 0%N.
Definition NL : char := 10%N.
Definition TAB : char := 9%N.
Definition CR : char := 13%N.
Definition SPACE : char := 32%N.
Definition DQUOTE : char := 34%N.
Definition SEMI : char := 59%N.
Definition UNDERSCORE : char := 95%N.

(** Python's [str.isalpha], [str.isdigit] and [str.isalnum] consult the
    Unicode character database.  On the ASCII range their values are
    written out below; beyond it the three tables are parameters. *)
Class UnicodeDB := {
  uni_isalpha : char -> bool;
  uni_isdigit : char -> bool;
  uni_isalnum : char -> bool
}.

Definition ascii_isdigit (c : char) : bool := (48 <=? c)%N && (c <=? 57)%N.

Definition ascii_isalpha (c : char) : bool :=
  ((65 <=? c)%N && (c <=? 90)%N) || ((97 <=? c)%N && (c <=? 122)%N).

Definition isdigit `{UnicodeDB} (c : char) : bool :=
  if (c <? 128)%N then ascii_isdigit c else uni_isdigit c.

Definition isalpha `{UnicodeDB} (c : char) : bool :=
  if (c <? 128)%N then ascii_isalpha c else uni_isalpha c.

Definition isalnum `{UnicodeDB} (c : char) : bool :=
  if (c <? 128)%N then ascii_isalpha c || ascii_isdigit c else uni_isalnum c.

(** ** Tokens *)

Inductive TokenType :=
| LPAREN | RPAREN
| PLUS | MINUS | STAR | SLASH | EQ | LT | GT
| IF_ | DO | DEF | DEFN | LET | PRINT | STRFN | LISTFN | NTH | HEAD | TAIL
| BOOL | INT | STRING | IDENT
| EOF.

(** The value [auto()] gives each member. *)
Definition TokenType_value (t : TokenType) : nat :=
  match t with
  | LPAREN => 1 | RPAREN => 2
  | PLUS => 3 | MINUS => 4 | STAR => 5 | SLASH => 6 | EQ => 7 | LT => 8 | GT => 9
  | IF_ => 10 | DO => 11 | DEF => 12 | DEFN => 13 | LET => 14 | PRINT => 15
  | STRFN => 16 | LISTFN => 17 | NTH => 18 | HEAD => 19 | TAIL => 20
  | BOOL => 21 | INT => 22 | STRING => 23 | IDENT => 24
  | EOF => 25
  end.

(** [TokenType.name]. *)
Definition TokenType_name (t : TokenType) : string :=
  match t with
  | LPAREN => "LPAREN" | RPAREN => "RPAREN"
  | PLUS => "PLUS" | MINUS => "MINUS" | STAR => "STAR" | SLASH => "SLASH"
  | EQ => "EQ" | LT => "LT" | GT => "GT"
  | IF_ => "IF" | DO => "DO" | DEF => "DEF" | DEFN => "DEFN" | LET => "LET"
  | PRINT => "PRINT" | STRFN => "STRFN" | LISTFN => "LISTFN" | NTH => "NTH"
  | HEAD => "HEAD" | TAIL => "TAIL"
  | BOOL => "BOOL" | INT => "INT" | STRING => "STRING" | IDENT => "IDENT"
  | EOF => "EOF"
  end%string.

Definition TokenType_eqb (a b : TokenType) : bool :=
  Nat.eqb (TokenType_value a) (TokenType_value b).

Module Token.
Record t := mk {
  type : TokenType;
  lexeme : list char;
  line : Z;
  column : Z
}.
End Token.

Abbreviation Token := Token.t.

(** ** Outcomes *)

(** [LexerError]: the two messages of lexer.py with the values they
    interpolate. *)
Inductive LexerError :=
| UnexpectedChar (c : char) (line column : Z)
| UnterminatedString (start_line start_col : Z).

(** [ParserError]: the expectation text and the token found; the message
    is "Parserfehler: {msg}, gefunden {type.name}('{lexeme}') an
    {line}:{column}". *)
Inductive ParserError :=
| mkParserError (msg : string) (token : Token).

Inductive exn :=
| ELexer (e : LexerError)
| EParser (e : ParserError).

Inductive result (A : Type) :=
| Ok (a : A)
| Raise (e : exn)
| OutOfFuel.

Arguments Ok {A} a.
Arguments Raise {A} e.
Arguments OutOfFuel {A}.

Definition bind {A B : Type} (m : result A) (k : A -> result B) : result B :=
  match m with
  | Ok a => k a
  | Raise e => Raise e
  | OutOfFuel => OutOfFuel
  end.

Notation "x <- m ;; k" := (bind m (fun x => k))
  (at level 61, m at next level, right associativity).
Notation "' pat <- m ;; k" := (bind m (fun x => match x with pat => k end))
  (at level 61, pat pattern, m at next level, right associativity).

(** ** The lexer *)

Record Lexer := mkLexer {
  text : list char;
  pos : nat;
  line : Z;
  column : Z
}.

(** [Lexer.__init__]. *)
Definition Lexer_init (t : list char) : Lexer := mkLexer t 0 1 1.

Definition peek (s : Lexer) : char :=
  if (length (text s) <=? pos s)%nat then NUL
  else nth (pos s) (text s) NUL.

Definition peek_next (s : Lexer) : char :=
  if (length (text s) <=? pos s + 1)%nat then NUL
  else nth (pos s + 1) (text s) NUL.

Definition consume (s : Lexer) : Lexer :=
  if (length (text s) <=? pos s)%nat then s
  else
    let c := nth (pos s) (text s) NUL in
    if (c =? NL)%N
    then mkLexer (text s) (pos s + 1) (line s + 1) 1
    else mkLexer (text s) (pos s + 1) (line s) (column s + 1).

(** Characters still ahead of the cursor; one more than this many
    iterations is enough for every loop of the lexer. *)
Definition remaining (s : Lexer) : nat := length (text s) - pos s.

Section LexerDef.
Context `{U : UnicodeDB}.

Definition is_ident_start (c : char) : bool := isalpha c || (c =? UNDERSCORE)%N.

Definition is_ident_part (c : char) : bool := isalnum c || (c =? UNDERSCORE)%N.

(** Membership in the tuple of space, tab, carriage return and newline. *)
Definition is_space (c : char) : bool :=
  (c =? SPACE)%N || (c =? TAB)%N || (c =? CR)%N || (c =? NL)%N.

(** The inner loop of [skip_whitespace_and_comments]: to the end of the
    line. *)
Fixpoint skip_comment (fuel : nat) (s : Lexer) : result Lexer :=
  match fuel with
  | O => OutOfFuel
  | S f =>
      if (peek s =? NL)%N || (peek s =? NUL)%N then Ok s
      else skip_comment f (consume s)
  end.

Fixpoint skip_whitespace_and_comments (fuel : nat) (s : Lexer) : result Lexer :=
  match fuel with
  | O => OutOfFuel
  | S f =>
      let c := peek s in
      if is_space c then skip_whitespace_and_comments f (consume s)
      else if (c =? SEMI)%N && (peek_next s =? SEMI)%N then
        s' <- skip_comment f (consume (consume s)) ;;
        skip_whitespace_and_comments f s'
      else Ok s
  end.

Fixpoint number_loop (fuel : nat) (buf : list char) (s : Lexer)
  : result (list char * Lexer) :=
  match fuel with
  | O => OutOfFuel
  | S f =>
      if isdigit (peek s) then number_loop f (buf ++ [peek s]) (consume s)
      else Ok (buf, s)
  end.

Definition number_token (fuel : nat) (start_line start_col : Z) (s : Lexer)
  : result (Token * Lexer) :=
  '(lexeme, s') <- number_loop fuel [] s ;;
  Ok (Token.mk INT lexeme start_line start_col, s').

Fixpoint string_loop (fuel : nat) (start_line start_col : Z)
    (buf : list char) (s : Lexer) : result (list char * Lexer) :=
  match fuel with
  | O => OutOfFuel
  | S f =>
      let c := peek s in
      if (c =? NUL)%N then
        Raise (ELexer (UnterminatedString start_line start_col))
      else if (c =? DQUOTE)%N then Ok (buf, consume s)
      else string_loop f start_line start_col (buf ++ [c]) (consume s)
  end.

Definition string_token (fuel : nat) (start_line start_col : Z) (s : Lexer)
  : result (Token * Lexer) :=
  '(lexeme, s') <- string_loop fuel start_line start_col [] (consume s) ;;
  Ok (Token.mk STRING lexeme start_line start_col, s').

Fixpoint ident_loop (fuel : nat) (buf : list char) (s : Lexer)
  : result (list char * Lexer) :=
  match fuel with
  | O => OutOfFuel
  | S f =>
      if is_ident_part (peek s)
      then ident_loop f (buf ++ [peek s]) (consume s)
      else Ok (buf, s)
  end.

(** The chain of comparisons that ends [ident_or_keyword]. *)
Definition keyword_type (text : list char) : TokenType :=
  if str_eqb text (str "if") then IF_
  else if str_eqb text (str "do") then DO
  else if str_eqb text (str "def") then DEF
  else if str_eqb text (str "defn") then DEFN
  else if str_eqb text (str "let") then LET
  else if str_eqb text (str "print") then PRINT
  else if str_eqb text (str "str") then STRFN
  else if str_eqb text (str "list") then LISTFN
  else if str_eqb text (str "nth") then NTH
  else if str_eqb text (str "head") then HEAD
  else if str_eqb text (str "tail") then TAIL
  else if str_eqb text (str "true") || str_eqb text (str "false") then BOOL
  else IDENT.

Definition ident_or_keyword (fuel : nat) (start_line start_col : Z) (s : Lexer)
  : result (Token * Lexer) :=
  '(text, s') <- ident_loop fuel [peek s] (consume s) ;;
  Ok (Token.mk (keyword_type text) text start_line start_col, s').

(** The one-character tokens of [next_token], in source order. *)
Definition punctuation (c : char) : option TokenType :=
  if (c =? ch "(")%N then Some LPAREN
  else if (c =? ch ")")%N then Some RPAREN
  else if (c =? ch "+")%N then Some PLUS
  else if (c =? ch "-")%N then Some MINUS
  else if (c =? ch "*")%N then Some STAR
  else if (c =? ch "/")%N then Some SLASH
  else if (c =? ch "=")%N then Some EQ
  else if (c =? ch "<")%N then Some LT
  else if (c =? ch ">")%N then Some GT
  else None.

Definition next_token_fuel (fuel : nat) (s0 : Lexer) : result (Token * Lexer) :=
  s <- skip_whitespace_and_comments fuel s0 ;;
  let start_line := line s in
  let start_col := column s in
  let c := peek s in
  if (c =? NUL)%N then Ok (Token.mk EOF (str "<EOF>") start_line start_col, s)
  else
    match punctuation c with
    | Some ty => Ok (Token.mk ty [c] start_line start_col, consume s)
    | None =>
        if isdigit c then number_token fuel start_line start_col s
        else if (c =? DQUOTE)%N then string_token fuel start_line start_col s
        else if is_ident_start c then ident_or_keyword fuel start_line start_col s
        else Raise (ELexer (UnexpectedChar c (line s) (column s)))
    end.

Definition next_token (s : Lexer) : result (Token * Lexer) :=
  next_token_fuel (S (remaining s)) s.

Fixpoint tokenize_loop (fuel : nat) (tokens : list Token) (s : Lexer)
  : result (list Token * Lexer) :=
  match fuel with
  | O => OutOfFuel
  | S f =>
      '(tok, s') <- next_token s ;;
      let tokens' := tokens ++ [tok] in
      if TokenType_eqb (Token.type tok) EOF then Ok (tokens', s')
      else tokenize_loop f tokens' s'
  end.

Definition tokenize (s : Lexer) : result (list Token * Lexer) :=
  tokenize_loop (S (remaining s)) [] s.

End LexerDef.

(** ** The AST *)

#[warnings="-register-all"]
Inductive Node := mkNode {
  kind : string;
  value : option (list char);
  children : list Node
}.

(** ** The parser *)

Record Parser := mkParser {
  lexer : Lexer;
  lookahead : Token
}.

Section ParserDef.
Context `{U : UnicodeDB}.

(** [Parser.__init__]: the first token is pulled at construction. *)
Definition Parser_init (l : Lexer) : result Parser :=
  '(tok, l') <- next_token l ;;
  Ok (mkParser l' tok).

Definition Parser_consume (p : Parser) : result Parser :=
  '(tok, l') <- next_token (lexer p) ;;
  Ok (mkParser l' tok).

Definition Parser_error {A : Type} (msg : string) (token : Token) : result A :=
  Raise (EParser (mkParserError msg token)).

Definition Parser_match (expected_type : TokenType) (p : Parser)
  : result (Token * Parser) :=
  if TokenType_eqb (Token.type (lookahead p)) expected_type then
    let tok := lookahead p in
    p' <- Parser_consume p ;;
    Ok (tok, p')
  else
    Parser_error ("erwartet " ++ TokenType_name expected_type) (lookahead p).

Definition parse_atom (p : Parser) : result (Node * Parser) :=
  let tok := lookahead p in
  if TokenType_eqb (Token.type tok) INT then
    p' <- Parser_consume p ;;
    Ok (mkNode "IntLiteral" (Some (Token.lexeme tok)) [], p')
  else if TokenType_eqb (Token.type tok) STRING then
    p' <- Parser_consume p ;;
    Ok (mkNode "StringLiteral" (Some (Token.lexeme tok)) [], p')
  else if TokenType_eqb (Token.type tok) BOOL then
    p' <- Parser_consume p ;;
    Ok (mkNode "BoolLiteral" (Some (Token.lexeme tok)) [], p')
  else if TokenType_eqb (Token.type tok) IDENT then
    p' <- Parser_consume p ;;
    Ok (mkNode "Identifier" (Some (Token.lexeme tok)) [], p')
  else Parser_error "Atom erwartet" tok.

(** [t in (a, b, ...)] on token types. *)
Definition type_in (t : TokenType) (l : list TokenType) : bool :=
  existsb (TokenType_eqb t) l.

Section Rules.
(** The rules call [self.parse_expr] recursively; here the callee is a
    parameter, instantiated below with [parse_expr] on a smaller budget.
    [fuel] bounds the iterations of each [while] loop. *)
Variable parse_expr_rec : Parser -> result (Node * Parser).
Variable fuel : nat.

(** [while self.lookahead.type not in (RPAREN, EOF):
       exprs.append(self.parse_expr())]
    the loop of both [parse_do_expr] and [parse_app_expr]. *)
Fixpoint exprs_loop (n : nat) (exprs : list Node) (p : Parser)
  : result (list Node * Parser) :=
  match n with
  | O => OutOfFuel
  | S n' =>
      if negb (type_in (Token.type (lookahead p)) [RPAREN; EOF]) then
        '(e, p') <- parse_expr_rec p ;;
        exprs_loop n' (exprs ++ [e]) p'
      else Ok (exprs, p)
  end.

Definition parse_if_expr (p : Parser) : result (Node * Parser) :=
  '(_, p1) <- Parser_match IF_ p ;;
  '(cond, p2) <- parse_expr_rec p1 ;;
  '(then_branch, p3) <- parse_expr_rec p2 ;;
  if negb (TokenType_eqb (Token.type (lookahead p3)) RPAREN) then
    '(else_branch, p4) <- parse_expr_rec p3 ;;
    Ok (mkNode "IfExpr" None [cond; then_branch; else_branch], p4)
  else
    Ok (mkNode "IfExpr" None [cond; then_branch], p3).

Definition parse_do_expr (p : Parser) : result (Node * Parser) :=
  '(_, p1) <- Parser_match DO p ;;
  if TokenType_eqb (Token.type (lookahead p1)) RPAREN then
    Parser_error "mindestens einen Ausdruck erwartet" (lookahead p1)
  else
    '(exprs, p2) <- exprs_loop fuel [] p1 ;;
    Ok (mkNode "DoExpr" None exprs, p2).

Definition parse_def_expr (p : Parser) : result (Node * Parser) :=
  '(_, p1) <- Parser_match DEF p ;;
  '(name, p2) <- Parser_match IDENT p1 ;;
  '(value, p3) <- parse_expr_rec p2 ;;
  Ok (mkNode "DefExpr" (Some (Token.lexeme name)) [value], p3).

Fixpoint params_loop (n : nat) (params : list Node) (p : Parser)
  : result (list Node * Parser) :=
  match n with
  | O => OutOfFuel
  | S n' =>
      if TokenType_eqb (Token.type (lookahead p)) IDENT then
        let params' := params ++ [mkNode "Param" (Some (Token.lexeme (lookahead p))) []] in
        p' <- Parser_consume p ;;
        params_loop n' params' p'
      else Ok (params, p)
  end.

Definition parse_defn_expr (p : Parser) : result (Node * Parser) :=
  '(_, p1) <- Parser_match DEFN p ;;
  '(name, p2) <- Parser_match IDENT p1 ;;
  '(_, p3) <- Parser_match LPAREN p2 ;;
  '(params, p4) <- params_loop fuel [] p3 ;;
  '(_, p5) <- Parser_match RPAREN p4 ;;
  '(body, p6) <- parse_expr_rec p5 ;;
  let param_node := mkNode "ParamList" None params in
  Ok (mkNode "DefnExpr" (Some (Token.lexeme name)) [param_node; body], p6).

Fixpoint bindings_loop (n : nat) (bindings : list Node) (p : Parser)
  : result (list Node * Parser) :=
  match n with
  | O => OutOfFuel
  | S n' =>
      if TokenType_eqb (Token.type (lookahead p)) IDENT then
        let name := Token.lexeme (lookahead p) in
        p1 <- Parser_consume p ;;
        '(value, p2) <- parse_expr_rec p1 ;;
        bindings_loop n' (bindings ++ [mkNode "LetBinding" (Some name) [value]]) p2
      else Ok (bindings, p)
  end.

Definition parse_let_expr (p : Parser) : result (Node * Parser) :=
  '(_, p1) <- Parser_match LET p ;;
  '(_, p2) <- Parser_match LPAREN p1 ;;
  '(bindings, p3) <- bindings_loop fuel [] p2 ;;
  '(_, p4) <- Parser_match RPAREN p3 ;;
  '(body, p5) <- parse_expr_rec p4 ;;
  Ok (mkNode "LetExpr" None [mkNode "LetBindings" None bindings; body], p5).

Definition parse_app_expr (p : Parser) : result (Node * Parser) :=
  let op := lookahead p in
  if negb (type_in (Token.type op)
             [PLUS; MINUS; STAR; SLASH; EQ; LT; GT;
              PRINT; STRFN; LISTFN; NTH; HEAD; TAIL; IDENT]) then
    Parser_error "Operator oder Funktionsname erwartet" op
  else
    p1 <- Parser_consume p ;;
    '(args, p2) <- exprs_loop fuel [] p1 ;;
    Ok (mkNode "AppExpr" (Some (Token.lexeme op)) args, p2).

Definition parse_form (p : Parser) : result (Node * Parser) :=
  let t := Token.type (lookahead p) in
  if TokenType_eqb t IF_ then parse_if_expr p
  else if TokenType_eqb t DO then parse_do_expr p
  else if TokenType_eqb t DEF then parse_def_expr p
  else if TokenType_eqb t DEFN then parse_defn_expr p
  else if TokenType_eqb t LET then parse_let_expr p
  else parse_app_expr p.

Definition parse_list_expr (p : Parser) : result (Node * Parser) :=
  '(_, p1) <- Parser_match LPAREN p ;;
  '(inside, p2) <- parse_form p1 ;;
  '(_, p3) <- Parser_match RPAREN p2 ;;
  Ok (mkNode "ListExpr" None [inside], p3).

(** The body of [parse_expr]. *)
Definition parse_expr_rule (p : Parser) : result (Node * Parser) :=
  let t := Token.type (lookahead p) in
  if type_in t [INT; STRING; BOOL; IDENT] then parse_atom p
  else if TokenType_eqb t LPAREN then parse_list_expr p
  else Parser_error "Ausdruck erwartet" (lookahead p).

End Rules.

Fixpoint parse_expr (fuel : nat) (p : Parser) : result (Node * Parser) :=
  match fuel with
  | O => OutOfFuel
  | S f => parse_expr_rule (parse_expr f) f p
  end.

Fixpoint parse_loop (fuel n : nat) (exprs : list Node) (p : Parser)
  : result (Node * Parser) :=
  match n with
  | O => OutOfFuel
  | S n' =>
      if negb (TokenType_eqb (Token.type (lookahead p)) EOF) then
        '(e, p') <- parse_expr fuel p ;;
        parse_loop fuel n' (exprs ++ [e]) p'
      else Ok (mkNode "Program" None exprs, p)
  end.

Definition parse (fuel : nat) (p : Parser) : result (Node * Parser) :=
  parse_loop fuel fuel [] p.

(** The test run at the end of parser.py: lex, construct the parser,
    parse; the tree is what the caller keeps. *)
Definition parse_text (fuel : nat) (code : list char) : result Node :=
  p <- Parser_init (Lexer_init code) ;;
  '(tree, _) <- parse fuel p ;;
  Ok tree.

End ParserDef.

(** * Vocabulary of the specification *)

Section Vocabulary.
Context `{U : UnicodeDB}.

(** [s'] is a later state of the same lexer run as [s]. *)
Definition follows (s s' : Lexer) : Prop :=
  text s' = text s /\ (pos s <= pos s')%nat /\ (remaining s' <= remaining s)%nat.

(** The shape of every outcome of one pull: the skip phase ends in some
    [s0], the token carries the position of [s0], and either the token is
    [EOF] and nothing more was consumed, or at least one character was. *)
Definition pull_ok (f : nat) (s : Lexer) (tok : Token) (s' : Lexer) : Prop :=
  exists s0,
    skip_whitespace_and_comments f s = Ok s0 /\ follows s s0 /\ follows s0 s' /\
    Token.line tok = line s0 /\ Token.column tok = column s0 /\
    ((Token.type tok = EOF /\ s' = s0 /\ peek s0 = NUL /\
      Token.lexeme tok = str "<EOF>") \/
     (Token.type tok <> EOF /\ peek s0 <> NUL /\
      (remaining s' < remaining s0)%nat)).

(** [tok.type == TokenType.EOF]. *)
Definition is_EOF (t : Token) : bool := TokenType_eqb (Token.type t) EOF.

(** The lexer stands between [pre], already consumed, and [rest]. *)
Definition at_cursor (s : Lexer) (pre rest : list char) : Prop :=
  text s = pre ++ rest /\ pos s = length pre.

(** Whitespace characters and comments [;; ... ] that run to the end of
    the line or of the input, in any order. *)
Inductive blank : list char -> Prop :=
| blank_nil : blank []
| blank_space c rest :
    is_space c = true -> blank rest -> blank (c :: rest)
| blank_comment body rest :
    Forall (fun c => c <> NL) body ->
    (rest = [] \/ exists rest', rest = NL :: rest') ->
    blank rest ->
    blank (SEMI :: SEMI :: body ++ rest).

(** How many tokens of a list are [EOF] tokens. *)
Definition count_EOF (tokens : list Token) : nat :=
  length (filter is_EOF tokens).

(** The reserved words and the kind each is given. *)
Definition reserved_words : list (string * TokenType) :=
  [("if", IF_); ("do", DO); ("def", DEF); ("defn", DEFN); ("let", LET);
   ("print", PRINT); ("str", STRFN); ("list", LISTFN); ("nth", NTH);
   ("head", HEAD); ("tail", TAIL); ("true", BOOL); ("false", BOOL)]%string.

(** A lexeme that [ident_or_keyword] reads: an identifier-start character
    (one that the digit test, tried first by [next_token], rejects)
    followed by identifier-part characters. *)
Definition ident_shaped (w : list char) : bool :=
  match w with
  | [] => false
  | c :: r => is_ident_start c && negb (isdigit c) && forallb is_ident_part r
  end.

(** What follows a lexeme: the end of the input or a character that
    cannot continue an identifier. *)
Definition ends_lexeme (rest : list char) : bool :=
  match rest with
  | [] => true
  | c :: _ => negb (is_ident_part c)
  end.

(** [P] holds at a node and at all of its descendants. *)
Fixpoint all_nodes (P : Node -> bool) (n : Node) : bool :=
  match n with
  | mkNode _ _ cs => P n && forallb (all_nodes P) cs
  end.

(** [n.kind == k]. *)
Definition has_kind (k : string) (n : Node) : bool := String.eqb (kind n) k.

(** [ListExpr] has exactly one child. *)
Definition list_arity_ok (n : Node) : bool :=
  if has_kind "ListExpr" n then Nat.eqb (length (children n)) 1 else true.

(** A [Param] leaf: a name and no children. *)
Definition is_param (n : Node) : bool :=
  has_kind "Param" n &&
  match value n, children n with
  | Some _, [] => true
  | _, _ => false
  end.

(** [DefnExpr] carries a name and has two children, the first a
    [ParamList] of [Param] leaves. *)
Definition defn_shape_ok (n : Node) : bool :=
  if has_kind "DefnExpr" n then
    match value n, children n with
    | Some _, [params; _] =>
        has_kind "ParamList" params &&
        match value params with None => true | Some _ => false end &&
        forallb is_param (children params)
    | _, _ => false
    end
  else true.

(** [DoExpr] has at least one child. *)
Definition do_arity_ok (n : Node) : bool :=
  if has_kind "DoExpr" n then Nat.leb 1 (length (children n)) else true.

(** [IfExpr] has two or three children. *)
Definition if_arity_ok (n : Node) : bool :=
  if has_kind "IfExpr" n
  then Nat.eqb (length (children n)) 2 || Nat.eqb (length (children n)) 3
  else true.

(** The four arity conditions together. *)
Definition node_ok (n : Node) : bool :=
  list_arity_ok n && defn_shape_ok n && do_arity_ok n && if_arity_ok n.

(** [r'] is [r] run on a budget that may be larger. *)
Definition refines {A} (r r' : result A) : Prop := r = OutOfFuel \/ r' = r.

(** What the parser has still to read: the characters left in the lexer
    and the lookahead token, unless that is [EOF]. *)
Definition tokens_left (p : Parser) : nat :=
  (remaining (lexer p) + if is_EOF (lookahead p) then 0 else 1)%nat.

(** [r] is not out of budget and, when it returns, leaves fewer than [m]
    tokens. *)
Definition below {A} (m : nat) (r : result (A * Parser)) : Prop :=
  r <> OutOfFuel /\
  forall a p', r = Ok (a, p') -> (tokens_left p' < m)%nat.

(** [rec] ends, having read something, on every state with fewer than
    [f] tokens left. *)
Definition total_on (f : nat) (rec : Parser -> result (Node * Parser)) : Prop :=
  forall p, (tokens_left p < f)%nat -> below (tokens_left p) (rec p).

(** Abbreviations for writing trees down: an atom, and a call in its
    parentheses. *)
Definition leaf (k : string) (v : string) : Node := mkNode k (Some (str v)) [].

Definition call (op : string) (args : list Node) : Node :=
  mkNode "ListExpr" None [mkNode "AppExpr" (Some (str op)) args].

(** The tree of [(if (< n 10) (print 1) (print 2))]. *)
Definition if_example : Node :=
  mkNode "Program" None
    [mkNode "ListExpr" None
       [mkNode "IfExpr" None
          [call "<" [leaf "Identifier" "n"; leaf "IntLiteral" "10"];
           call "print" [leaf "IntLiteral" "1"];
           call "print" [leaf "IntLiteral" "2"]]]].

(** The tree of [(defn f () 1)]. *)
Definition defn_example : Node :=
  mkNode "Program" None
    [mkNode "ListExpr" None
       [mkNode "DefnExpr" (Some (str "f"))
          [mkNode "ParamList" None []; leaf "IntLiteral" "1"]]].

(** A database in which no code point beyond ASCII is a letter or a
    digit; the concrete runs below use it. *)
Definition ascii_db : UnicodeDB :=
  {| uni_isalpha := fun _ => false;
     uni_isdigit := fun _ => false;
     uni_isalnum := fun _ => false |}.

(** The parser over a one-line [code] with the lexer at [pos] and the
    given lookahead token. *)
Definition parser_at (code : list char) (pos : nat)
    (ty : TokenType) (lexeme : list char) (col : Z) : Parser :=
  mkParser (mkLexer code pos 1 (Z.of_nat pos + 1))
           (Token.mk ty lexeme 1 col).

(** The source text a token was read from: its lexeme, between the two
    quotes for a string, and nothing for [EOF]. *)
Definition source_of (tok : Token) : list char :=
  match Token.type tok with
  | EOF => []
  | STRING => DQUOTE :: Token.lexeme tok ++ [DQUOTE]
  | _ => Token.lexeme tok
  end.

(** The first character is an identifier start, the others are
    identifier parts. *)
Definition ident_chars (w : list char) : bool :=
  match w with
  | [] => false
  | c :: r => is_ident_start c && forallb is_ident_part r
  end.

(** What the lexeme of a token of each kind looks like. *)
Definition token_ok (tok : Token) : bool :=
  let w := Token.lexeme tok in
  match Token.type tok with
  | EOF => str_eqb w (str "<EOF>")
  | INT => match w with [] => false | _ => forallb isdigit w end
  | STRING =>
      forallb (fun c => negb (c =? DQUOTE)%N && negb (c =? NUL)%N) w
  | LPAREN | RPAREN | PLUS | MINUS | STAR | SLASH | EQ | LT | GT =>
      match w with
      | [c] => match punctuation c with
               | Some ty => TokenType_eqb ty (Token.type tok)
               | None => false
               end
      | _ => false
      end
  | _ => ident_chars w && TokenType_eqb (keyword_type w) (Token.type tok)
  end.

(** A token kind that ends only where the next character cannot extend
    the lexeme. *)
Definition stops_at (tok : Token) (c : char) : bool :=
  match Token.type tok with
  | INT => negb (isdigit c)
  | LPAREN | RPAREN | PLUS | MINUS | STAR | SLASH | EQ | LT | GT
  | STRING | EOF => true
  | _ => negb (is_ident_part c)
  end.

(** The line and column after one more character. *)
Definition advance (lc : Z * Z) (c : char) : Z * Z :=
  if (c =? NL)%N then (fst lc + 1, 1)%Z else (fst lc, snd lc + 1)%Z.

(** The line and column reached from 1:1 by reading [pre]. *)
Definition line_col (pre : list char) : Z * Z := fold_left advance pre (1, 1)%Z.

(** The lexer is inside its text, and its line and column are those of
    the text before the cursor. *)
Definition positioned (s : Lexer) : Prop :=
  exists pre rest, at_cursor s pre rest /\ (line s, column s) = line_col pre.

(** [n.kind in ks]. *)
Definition kind_in (ks : list string) (n : Node) : bool :=
  existsb (String.eqb (kind n)) ks.

(** [n.value is not None]. *)
Definition has_value (n : Node) : bool :=
  match value n with Some _ => true | None => false end.

(** The kinds the parser builds, with what each carries: structural
    nodes have no value; literals, identifiers and parameters are leaves
    with a value; definitions, bindings and applications are named;
    [DefExpr] and [LetBinding] have one child; a [LetExpr] is a
    [LetBindings] node, whose children are [LetBinding] nodes, and a
    body. *)
Definition kind_ok (n : Node) : bool :=
  if kind_in ["Program"; "ListExpr"; "IfExpr"; "DoExpr"; "ParamList"]%string n then
    negb (has_value n)
  else if kind_in ["IntLiteral"; "StringLiteral"; "BoolLiteral"; "Identifier";
                   "Param"]%string n then
    has_value n && Nat.eqb (length (children n)) 0
  else if kind_in ["DefExpr"; "LetBinding"]%string n then
    has_value n && Nat.eqb (length (children n)) 1
  else if kind_in ["DefnExpr"; "AppExpr"]%string n then
    has_value n
  else if has_kind "LetBindings" n then
    negb (has_value n) && forallb (has_kind "LetBinding") (children n)
  else if has_kind "LetExpr" n then
    negb (has_value n) &&
    match children n with
    | [bindings; _] => has_kind "LetBindings" bindings
    | _ => false
    end
  else false.

(** [txt] is the source text of the tokens [toks], in order, each
    preceded by whitespace and comments only. *)
Inductive interleaved : list Token -> list char -> Prop :=
| interleaved_nil : interleaved [] []
| interleaved_cons skipped tok toks txt :
    blank skipped -> interleaved toks txt ->
    interleaved (tok :: toks) (skipped ++ source_of tok ++ txt).

(** The tokens still to come can all be lexed: the lookahead is [EOF],
    or [tokenize] succeeds from the parser's lexer. *)
Definition lexes_on (p : Parser) : Prop :=
  is_EOF (lookahead p) = true \/
  exists toks s', tokenize (lexer p) = Ok (toks, s').

End Vocabulary.

(** * Properties of the lexer *)

Section LexerFacts.
Context `{U : UnicodeDB}.

Lemma follows_refl s : follows s s.
Proof. unfold follows; auto. Qed.

Lemma follows_trans s1 s2 s3 : follows s1 s2 -> follows s2 s3 -> follows s1 s3.
Proof.
  unfold follows. intros (Ht1 & Hp1 & Hr1) (Ht2 & Hp2 & Hr2).
  repeat split; [congruence | lia | lia].
Qed.

Lemma peek_in_range s : peek s <> NUL -> (pos s < length (text s))%nat.
Proof.
  unfold peek. destruct (Nat.leb_spec (length (text s)) (pos s)); [congruence | auto].
Qed.

Lemma peek_at_end s : (length (text s) <= pos s)%nat -> peek s = NUL.
Proof.
  intros H. unfold peek. apply Nat.leb_le in H. now rewrite H.
Qed.

Lemma consume_text s : text (consume s) = text s.
Proof.
  unfold consume. destruct (length (text s) <=? pos s)%nat; [reflexivity |].
  destruct (nth (pos s) (text s) NUL =? NL)%N; reflexivity.
Qed.

Lemma consume_pos s :
  (pos s < length (text s))%nat -> pos (consume s) = S (pos s).
Proof.
  intros H. unfold consume. apply Nat.leb_gt in H. rewrite H.
  destruct (nth (pos s) (text s) NUL =? NL)%N; cbn [pos]; lia.
Qed.

Lemma consume_past_end s :
  (length (text s) <= pos s)%nat -> consume s = s.
Proof.
  intros H. unfold consume. apply Nat.leb_le in H. now rewrite H.
Qed.

Lemma consume_follows s : follows s (consume s).
Proof.
  destruct (Nat.le_gt_cases (length (text s)) (pos s)) as [Hle | Hlt].
  - rewrite consume_past_end by assumption. apply follows_refl.
  - unfold follows, remaining. rewrite consume_text, consume_pos by assumption.
    repeat split; lia.
Qed.

(** Consuming a character that [peek] shows strictly shrinks what is left. *)
Lemma consume_remaining s :
  peek s <> NUL -> S (remaining (consume s)) = remaining s.
Proof.
  intros H. apply peek_in_range in H. unfold remaining.
  rewrite consume_text, consume_pos by assumption. lia.
Qed.

(** *** Every loop ends within [remaining s + 1] iterations *)

Lemma skip_comment_ok f s :
  (remaining s < f)%nat ->
  exists s', skip_comment f s = Ok s' /\ follows s s' /\
             (peek s' = NL \/ peek s' = NUL).
Proof.
  revert s. induction f as [| f IH]; intros s Hf; [lia |].
  cbn [skip_comment].
  destruct (N.eqb_spec (peek s) NL) as [Hnl | Hnl].
  { exists s. auto using follows_refl. }
  destruct (N.eqb_spec (peek s) NUL) as [Hnul | Hnul]; cbn [orb].
  { exists s. auto using follows_refl. }
  destruct (IH (consume s)) as (s' & Hs' & Hfol & Hpk).
  { pose proof (consume_remaining s Hnul). lia. }
  exists s'. repeat split; auto.
  all: eapply follows_trans; [apply consume_follows | eassumption].
Qed.

Lemma is_space_not_nul c : is_space c = true -> c <> NUL.
Proof. intros H ->. discriminate H. Qed.

Lemma skip_whitespace_and_comments_ok f s :
  (remaining s < f)%nat ->
  exists s', skip_whitespace_and_comments f s = Ok s' /\ follows s s' /\
             is_space (peek s') = false /\
             ((peek s' =? SEMI)%N && (peek_next s' =? SEMI)%N) = false.
Proof.
  revert s. induction f as [| f IH]; intros s Hf; [lia |].
  cbn [skip_whitespace_and_comments].
  destruct (is_space (peek s)) eqn:Hsp.
  { destruct (IH (consume s)) as (s' & Hs' & Hfol & Hpk).
    { pose proof (consume_remaining s (is_space_not_nul _ Hsp)). lia. }
    exists s'. repeat split; try tauto.
    all: eapply follows_trans; [apply consume_follows | apply Hfol]. }
  destruct ((peek s =? SEMI)%N && (peek_next s =? SEMI)%N) eqn:Hsemi.
  2:{ exists s. auto using follows_refl. }
  apply andb_prop in Hsemi. destruct Hsemi as [Hsemi _].
  apply N.eqb_eq in Hsemi.
  assert (Hnn : peek s <> NUL) by (rewrite Hsemi; discriminate).
  pose proof (consume_remaining s Hnn) as Hrem.
  pose proof (consume_follows (consume s)) as Hc2.
  destruct (skip_comment_ok f (consume (consume s))) as (s1 & Hs1 & Hfol1 & _).
  { destruct Hc2 as (_ & _ & ?). lia. }
  rewrite Hs1. cbn [bind].
  destruct (IH s1) as (s' & Hs' & Hfol & Hpk).
  { destruct Hc2 as (_ & _ & ?). destruct Hfol1 as (_ & _ & ?). lia. }
  exists s'. repeat split; try tauto.
  all: eapply follows_trans; [apply consume_follows |];
       eapply follows_trans; [apply Hc2 |];
       eapply follows_trans; [apply Hfol1 | apply Hfol].
Qed.

Lemma isdigit_not_nul c : isdigit c = true -> c <> NUL.
Proof. intros H ->. discriminate H. Qed.

Lemma is_ident_part_not_nul c : is_ident_part c = true -> c <> NUL.
Proof. intros H ->. discriminate H. Qed.

Lemma is_ident_start_not_nul c : is_ident_start c = true -> c <> NUL.
Proof. intros H ->. discriminate H. Qed.

Lemma number_loop_ok f buf s :
  (remaining s < f)%nat ->
  exists buf' s', number_loop f buf s = Ok (buf', s') /\ follows s s' /\
                  isdigit (peek s') = false.
Proof.
  revert buf s. induction f as [| f IH]; intros buf s Hf; [lia |].
  cbn [number_loop].
  destruct (isdigit (peek s)) eqn:Hd.
  2:{ exists buf, s. auto using follows_refl. }
  destruct (IH (buf ++ [peek s]) (consume s)) as (b' & s' & Hs' & Hfol & Hpk).
  { pose proof (consume_remaining s (isdigit_not_nul _ Hd)). lia. }
  exists b', s'. repeat split; auto.
  all: eapply follows_trans; [apply consume_follows | apply Hfol].
Qed.

Lemma ident_loop_ok f buf s :
  (remaining s < f)%nat ->
  exists buf' s', ident_loop f buf s = Ok (buf', s') /\ follows s s' /\
                  is_ident_part (peek s') = false.
Proof.
  revert buf s. induction f as [| f IH]; intros buf s Hf; [lia |].
  cbn [ident_loop].
  destruct (is_ident_part (peek s)) eqn:Hd.
  2:{ exists buf, s. auto using follows_refl. }
  destruct (IH (buf ++ [peek s]) (consume s)) as (b' & s' & Hs' & Hfol & Hpk).
  { pose proof (consume_remaining s (is_ident_part_not_nul _ Hd)). lia. }
  exists b', s'. repeat split; auto.
  all: eapply follows_trans; [apply consume_follows | apply Hfol].
Qed.

Lemma string_loop_ok f l c buf s :
  (remaining s < f)%nat ->
  (exists buf' s', string_loop f l c buf s = Ok (buf', s') /\ follows s s') \/
  string_loop f l c buf s = Raise (ELexer (UnterminatedString l c)).
Proof.
  revert buf s. induction f as [| f IH]; intros buf s Hf; [lia |].
  cbn [string_loop].
  destruct (N.eqb_spec (peek s) NUL) as [Hnul | Hnul]; [now right |].
  destruct (N.eqb_spec (peek s) DQUOTE) as [Hq | Hq].
  { left. exists buf, (consume s). auto using consume_follows. }
  destruct (IH (buf ++ [peek s]) (consume s)) as [(b' & s' & Hs' & Hfol) | Hr].
  { pose proof (consume_remaining s Hnul). lia. }
  - left. exists b', s'. split; auto.
    eapply follows_trans; [apply consume_follows | apply Hfol].
  - now right.
Qed.

(** *** A larger budget does not change a result *)

Lemma skip_comment_mono f f' s r :
  skip_comment f s = r -> r <> OutOfFuel -> (f <= f')%nat ->
  skip_comment f' s = r.
Proof.
  revert f' s. induction f as [| f IH]; intros f' s H Hr Hle.
  { cbn in H. congruence. }
  destruct f' as [| f']; [lia |]. cbn [skip_comment] in *.
  destruct ((peek s =? NL)%N || (peek s =? NUL)%N); [assumption |].
  apply IH; [assumption | assumption | lia].
Qed.

Lemma skip_whitespace_and_comments_mono f f' s r :
  skip_whitespace_and_comments f s = r -> r <> OutOfFuel -> (f <= f')%nat ->
  skip_whitespace_and_comments f' s = r.
Proof.
  revert f' s. induction f as [| f IH]; intros f' s H Hr Hle.
  { cbn in H. congruence. }
  destruct f' as [| f']; [lia |]. cbn [skip_whitespace_and_comments] in *.
  destruct (is_space (peek s)).
  { apply IH; [assumption | assumption | lia]. }
  destruct ((peek s =? SEMI)%N && (peek_next s =? SEMI)%N); [| assumption].
  destruct (skip_comment f (consume (consume s))) as [s1 | e |] eqn:E;
    cbn [bind] in H.
  - rewrite (skip_comment_mono f f' _ _ E) by (try discriminate; lia).
    cbn [bind]. apply IH; [assumption | assumption | lia].
  - rewrite (skip_comment_mono f f' _ _ E) by (try discriminate; lia).
    assumption.
  - congruence.
Qed.

Lemma number_loop_mono f f' buf s r :
  number_loop f buf s = r -> r <> OutOfFuel -> (f <= f')%nat ->
  number_loop f' buf s = r.
Proof.
  revert f' buf s. induction f as [| f IH]; intros f' buf s H Hr Hle.
  { cbn in H. congruence. }
  destruct f' as [| f']; [lia |]. cbn [number_loop] in *.
  destruct (isdigit (peek s)); [| assumption].
  apply IH; [assumption | assumption | lia].
Qed.

Lemma ident_loop_mono f f' buf s r :
  ident_loop f buf s = r -> r <> OutOfFuel -> (f <= f')%nat ->
  ident_loop f' buf s = r.
Proof.
  revert f' buf s. induction f as [| f IH]; intros f' buf s H Hr Hle.
  { cbn in H. congruence. }
  destruct f' as [| f']; [lia |]. cbn [ident_loop] in *.
  destruct (is_ident_part (peek s)); [| assumption].
  apply IH; [assumption | assumption | lia].
Qed.

Lemma string_loop_mono f f' l c buf s r :
  string_loop f l c buf s = r -> r <> OutOfFuel -> (f <= f')%nat ->
  string_loop f' l c buf s = r.
Proof.
  revert f' buf s. induction f as [| f IH]; intros f' buf s H Hr Hle.
  { cbn in H. congruence. }
  destruct f' as [| f']; [lia |]. cbn [string_loop] in *.
  destruct (peek s =? NUL)%N; [assumption |].
  destruct (peek s =? DQUOTE)%N; [assumption |].
  apply IH; [assumption | assumption | lia].
Qed.

(** [bind] and budgets: if the whole is not out of budget, neither is the
    first part. *)
Lemma bind_mono {A B} (m m' : result A) (k k' : A -> result B) r :
  bind m k = r -> r <> OutOfFuel ->
  (m <> OutOfFuel -> m' = m) ->
  (forall a, m = Ok a -> k a <> OutOfFuel -> k' a = k a) ->
  bind m' k' = r.
Proof.
  intros H Hr Hm Hk. destruct m as [a | e |]; cbn [bind] in H.
  - rewrite Hm by discriminate. cbn [bind]. rewrite Hk; congruence.
  - rewrite Hm by discriminate. assumption.
  - congruence.
Qed.

Lemma next_token_fuel_mono f f' s r :
  next_token_fuel f s = r -> r <> OutOfFuel -> (f <= f')%nat ->
  next_token_fuel f' s = r.
Proof.
  intros H Hr Hle. unfold next_token_fuel in *.
  eapply bind_mono; [exact H | exact Hr | |].
  { intros Hd. eapply skip_whitespace_and_comments_mono; eauto. }
  intros s0 _ Hk. cbv beta zeta in Hk |- *.
  destruct (peek s0 =? NUL)%N; [reflexivity |].
  destruct (punctuation (peek s0)); [reflexivity |].
  destruct (isdigit (peek s0)).
  { unfold number_token in *.
    eapply bind_mono; [reflexivity | exact Hk | | reflexivity].
    intros Hd. eapply number_loop_mono; eauto. }
  destruct (peek s0 =? DQUOTE)%N.
  { unfold string_token in *.
    eapply bind_mono; [reflexivity | exact Hk | | reflexivity].
    intros Hd. eapply string_loop_mono; eauto. }
  destruct (is_ident_start (peek s0)); [| reflexivity].
  unfold ident_or_keyword in *.
  eapply bind_mono; [reflexivity | exact Hk | | reflexivity].
  intros Hd. eapply ident_loop_mono; eauto.
Qed.

(** *** What [next_token] returns *)

Lemma punctuation_not_EOF c ty : punctuation c = Some ty -> ty <> EOF.
Proof.
  unfold punctuation.
  repeat match goal with
         | |- context [if ?b then _ else _] => destruct b
         end; intros H; inversion H; discriminate.
Qed.

Lemma punctuation_not_nul c ty : punctuation c = Some ty -> c <> NUL.
Proof. intros H ->. discriminate H. Qed.

Lemma keyword_type_not_EOF t : keyword_type t <> EOF.
Proof.
  unfold keyword_type.
  repeat match goal with
         | |- context [if ?b then _ else _] => destruct b
         end; discriminate.
Qed.

Lemma next_token_fuel_spec f s :
  (remaining s < f)%nat ->
  (exists tok s', next_token_fuel f s = Ok (tok, s') /\ pull_ok f s tok s') \/
  (exists e, next_token_fuel f s = Raise (ELexer e)).
Proof.
  intros Hf. unfold next_token_fuel.
  destruct (skip_whitespace_and_comments_ok f s Hf) as (s0 & Hs0 & Hfol & _).
  rewrite Hs0. cbn [bind]. cbv zeta.
  assert (Hf0 : (remaining s0 < f)%nat) by (destruct Hfol as (_ & _ & ?); lia).
  assert (Hshape : forall tok s',
             Token.line tok = line s0 -> Token.column tok = column s0 ->
             follows s0 s' ->
             (Token.type tok = EOF /\ s' = s0 /\ peek s0 = NUL /\
              Token.lexeme tok = str "<EOF>") \/
             (Token.type tok <> EOF /\ peek s0 <> NUL /\
              (remaining s' < remaining s0)%nat) ->
             pull_ok f s tok s').
  { intros tok s' Hl Hc Hfs Hd. exists s0. tauto. }
  destruct (N.eqb_spec (peek s0) NUL) as [Hnul | Hnul].
  { left. do 2 eexists. split; [reflexivity |].
    apply Hshape; [reflexivity | reflexivity | apply follows_refl |].
    left. auto. }
  pose proof (consume_remaining s0 Hnul) as Hcr.
  destruct (punctuation (peek s0)) as [ty |] eqn:Hp.
  { left. do 2 eexists. split; [reflexivity |].
    apply Hshape; [reflexivity | reflexivity | apply consume_follows |].
    right. split; [eapply punctuation_not_EOF; eauto |]. split; [assumption | lia]. }
  destruct (isdigit (peek s0)) eqn:Hd.
  { unfold number_token.
    destruct f as [| f]; [lia |]. cbn [number_loop]. rewrite Hd.
    destruct (number_loop_ok f ([] ++ [peek s0]) (consume s0))
      as (b & s' & Hs' & Hfol' & _); [lia |].
    rewrite Hs'. cbn [bind]. left. do 2 eexists. split; [reflexivity |].
    apply Hshape; [reflexivity | reflexivity | |].
    { eapply follows_trans; [apply consume_follows | apply Hfol']. }
    right. split; [discriminate |]. split; [assumption |].
    destruct Hfol' as (_ & _ & ?). lia. }
  destruct (N.eqb_spec (peek s0) DQUOTE) as [Hq | Hq].
  { unfold string_token.
    destruct (string_loop_ok f (line s0) (column s0) [] (consume s0))
      as [(b & s' & Hs' & Hfol') | Hr]; [lia | |].
    - rewrite Hs'. cbn [bind]. left. do 2 eexists. split; [reflexivity |].
      apply Hshape; [reflexivity | reflexivity | |].
      { eapply follows_trans; [apply consume_follows | apply Hfol']. }
      right. split; [discriminate |]. split; [assumption |].
      destruct Hfol' as (_ & _ & ?). lia.
    - rewrite Hr. cbn [bind]. right. eauto. }
  destruct (is_ident_start (peek s0)) eqn:Hi.
  2:{ right. eauto. }
  unfold ident_or_keyword.
  destruct (ident_loop_ok f [peek s0] (consume s0))
    as (b & s' & Hs' & Hfol' & _); [lia |].
  rewrite Hs'. cbn [bind]. left. do 2 eexists. split; [reflexivity |].
  apply Hshape; [reflexivity | reflexivity | |].
  { eapply follows_trans; [apply consume_follows | apply Hfol']. }
  right. split; [apply keyword_type_not_EOF |]. split; [assumption |].
  destruct Hfol' as (_ & _ & ?). lia.
Qed.

(** [next_token] never runs out of budget, and any budget above
    [remaining s] gives its result. *)
Lemma next_token_defined s : next_token s <> OutOfFuel.
Proof.
  unfold next_token.
  destruct (next_token_fuel_spec (S (remaining s)) s) as [(t & s' & H & _) | (e & H)];
    [lia | |]; rewrite H; discriminate.
Qed.

Lemma next_token_fuel_enough f s :
  (remaining s < f)%nat -> next_token_fuel f s = next_token s.
Proof.
  intros Hf. eapply next_token_fuel_mono;
    [reflexivity | apply next_token_defined | lia].
Qed.

Lemma next_token_spec s :
  (exists tok s', next_token s = Ok (tok, s') /\
                  pull_ok (S (remaining s)) s tok s') \/
  (exists e, next_token s = Raise (ELexer e)).
Proof. apply next_token_fuel_spec. lia. Qed.

(** *** [tokenize] *)

Lemma TokenType_eqb_eq a b : TokenType_eqb a b = true <-> a = b.
Proof.
  unfold TokenType_eqb. rewrite Nat.eqb_eq. split; [| now intros ->].
  destruct a, b; cbn; intros H; try reflexivity; discriminate H.
Qed.

Lemma TokenType_eqb_neq a b : TokenType_eqb a b = false <-> a <> b.
Proof.
  rewrite <- TokenType_eqb_eq. destruct (TokenType_eqb a b); split; congruence.
Qed.

Lemma TokenType_eqb_spec a b : reflect (a = b) (TokenType_eqb a b).
Proof.
  destruct (TokenType_eqb a b) eqn:E; constructor.
  - now apply TokenType_eqb_eq.
  - now apply TokenType_eqb_neq.
Qed.

Lemma tokenize_loop_ok f acc s :
  (remaining s < f)%nat ->
  (exists pre eof s',
      tokenize_loop f acc s = Ok (acc ++ pre ++ [eof], s') /\
      Token.type eof = EOF /\ forallb (fun t => negb (is_EOF t)) pre = true) \/
  (exists e, tokenize_loop f acc s = Raise (ELexer e)).
Proof.
  revert acc s. induction f as [| f IH]; intros acc s Hf; [lia |].
  cbn [tokenize_loop].
  destruct (next_token_spec s) as [(tok & s' & Hnt & Hpull) | (e & Hnt)];
    rewrite Hnt; cbn [bind]; [| right; eauto].
  destruct Hpull as (s0 & _ & Hfol & _ & _ & _ & [Heof | Hne]).
  - destruct Heof as (Hty & _). rewrite Hty. cbn.
    left. exists [], tok, s'. auto.
  - destruct Hne as (Hty & _ & Hrem).
    apply TokenType_eqb_neq in Hty. rewrite Hty.
    destruct (IH (acc ++ [tok]) s') as [(pre & eof & s2 & H2 & Hty2 & Hpre) | (e & H2)].
    { destruct Hfol as (_ & _ & ?). lia. }
    + left. exists (tok :: pre), eof, s2. rewrite H2, <- app_assoc.
      repeat split; auto. cbn [forallb]. unfold is_EOF at 1. now rewrite Hty.
    + right. eauto.
Qed.

Lemma tokenize_loop_mono f f' acc s r :
  tokenize_loop f acc s = r -> r <> OutOfFuel -> (f <= f')%nat ->
  tokenize_loop f' acc s = r.
Proof.
  revert f' acc s. induction f as [| f IH]; intros f' acc s H Hr Hle.
  { cbn in H. congruence. }
  destruct f' as [| f']; [lia |]. cbn [tokenize_loop] in *.
  destruct (next_token s) as [[tok s'] | e |]; cbn [bind] in *; try assumption.
  destruct (TokenType_eqb (Token.type tok) EOF); [assumption |].
  apply IH; [assumption | assumption | lia].
Qed.

(** *** The cursor inside the text *)

Lemma at_cursor_init t : at_cursor (Lexer_init t) [] t.
Proof. split; reflexivity. Qed.

Lemma at_cursor_here s : (pos s <= length (text s))%nat ->
  at_cursor s (firstn (pos s) (text s)) (skipn (pos s) (text s)).
Proof.
  intros H. split; [now rewrite firstn_skipn |].
  rewrite length_firstn. lia.
Qed.

Lemma at_cursor_remaining s pre rest :
  at_cursor s pre rest -> remaining s = length rest.
Proof.
  intros [Ht Hp]. unfold remaining. rewrite Ht, Hp, length_app. lia.
Qed.

Lemma at_cursor_peek_nil s pre : at_cursor s pre [] -> peek s = NUL.
Proof.
  intros [Ht Hp]. apply peek_at_end. rewrite Ht, Hp, length_app. cbn. lia.
Qed.

Lemma at_cursor_peek s pre c rest : at_cursor s pre (c :: rest) -> peek s = c.
Proof.
  intros [Ht Hp]. unfold peek. rewrite Ht, Hp, length_app. cbn [length].
  destruct (Nat.leb_spec (length pre + S (length rest)) (length pre)); [lia |].
  apply nth_middle.
Qed.

Lemma at_cursor_peek_next s pre c d rest :
  at_cursor s pre (c :: d :: rest) -> peek_next s = d.
Proof.
  intros [Ht Hp]. unfold peek_next. rewrite Ht, Hp, length_app. cbn [length].
  destruct (Nat.leb_spec (length pre + S (S (length rest))) (length pre + 1)); [lia |].
  replace (pre ++ c :: d :: rest) with ((pre ++ [c]) ++ d :: rest)
    by (rewrite <- app_assoc; reflexivity).
  replace (length pre + 1)%nat with (length (pre ++ [c]))
    by (rewrite length_app; reflexivity).
  apply nth_middle.
Qed.

Lemma at_cursor_consume s pre c rest :
  at_cursor s pre (c :: rest) ->
  at_cursor (consume s) (pre ++ [c]) rest /\
  consume s = if (c =? NL)%N
              then mkLexer (text s) (pos s + 1) (line s + 1) 1
              else mkLexer (text s) (pos s + 1) (line s) (column s + 1).
Proof.
  intros Hc. pose proof (at_cursor_peek _ _ _ _ Hc) as Hpk.
  destruct Hc as [Ht Hp].
  assert (Hlt : (pos s < length (text s))%nat).
  { rewrite Ht, Hp, length_app. cbn. lia. }
  assert (Hnth : nth (pos s) (text s) NUL = c).
  { unfold peek in Hpk. apply Nat.leb_gt in Hlt. now rewrite Hlt in Hpk. }
  split.
  - split.
    + rewrite consume_text, Ht, <- app_assoc. reflexivity.
    + rewrite consume_pos, Hp, length_app by assumption. cbn. lia.
  - unfold consume. apply Nat.leb_gt in Hlt. rewrite Hlt, Hnth. reflexivity.
Qed.

(** A state whose [peek] is [NUL] is a fixed point of the skip phase and
    yields [EOF] without moving. *)
Lemma skip_at_nul f s :
  peek s = NUL -> skip_whitespace_and_comments (S f) s = Ok s.
Proof. intros H. cbn [skip_whitespace_and_comments]. rewrite H. reflexivity. Qed.

Lemma next_token_at_nul s :
  peek s = NUL ->
  next_token s = Ok (Token.mk EOF (str "<EOF>") (line s) (column s), s).
Proof.
  intros H. unfold next_token, next_token_fuel.
  rewrite skip_at_nul by assumption. cbn [bind]. cbv zeta. rewrite H.
  reflexivity.
Qed.

(** *** Inputs made of whitespace and line comments *)

Lemma skip_comment_body f s pre body rest :
  at_cursor s pre (body ++ rest) ->
  Forall (fun c => c <> NL) body ->
  (rest = [] \/ exists rest', rest = NL :: rest') ->
  (remaining s < f)%nat ->
  exists s', skip_comment f s = Ok s' /\ follows s s' /\
             (peek s' = NUL \/ at_cursor s' (pre ++ body) rest).
Proof.
  revert f s pre. induction body as [| c body IH]; intros f s pre Hc Hb Hr Hf.
  - destruct f as [| f]; [lia |]. cbn [skip_comment]. cbn [app] in Hc.
    exists s. rewrite app_nil_r.
    destruct Hr as [-> | [rest' ->]].
    + rewrite (at_cursor_peek_nil _ _ Hc). cbn. auto using follows_refl.
    + rewrite (at_cursor_peek _ _ _ _ Hc). cbn. auto using follows_refl.
  - destruct f as [| f]; [lia |]. cbn [skip_comment]. cbn [app] in Hc.
    rewrite (at_cursor_peek _ _ _ _ Hc).
    inversion Hb as [| ? ? Hc_nl Hb']; subst.
    destruct (N.eqb_spec c NL) as [? | _]; [contradiction |].
    destruct (N.eqb_spec c NUL) as [Hnul | Hnul]; cbn [orb].
    { exists s. split; [reflexivity |]. split; [apply follows_refl |].
      left. rewrite (at_cursor_peek _ _ _ _ Hc). assumption. }
    destruct (at_cursor_consume _ _ _ _ Hc) as [Hc' _].
    destruct (IH f (consume s) (pre ++ [c]) Hc' Hb' Hr) as (s' & Hs' & Hfol & Hend).
    { rewrite (at_cursor_remaining _ _ _ Hc').
      rewrite (at_cursor_remaining _ _ _ Hc) in Hf. cbn in Hf. lia. }
    exists s'. split; [assumption |].
    split; [eapply follows_trans; [apply consume_follows | apply Hfol] |].
    rewrite <- app_assoc in Hend. exact Hend.
Qed.

Lemma skip_blank rest :
  blank rest ->
  forall f s pre, at_cursor s pre rest -> (remaining s < f)%nat ->
  exists s', skip_whitespace_and_comments f s = Ok s' /\ peek s' = NUL.
Proof.
  induction 1 as [| c rest Hsp Hbl IH | body rest Hbody Hrest Hbl IH];
    intros f s pre Hc Hf.
  - destruct f as [| f]; [lia |].
    exists s. pose proof (at_cursor_peek_nil _ _ Hc).
    split; [apply skip_at_nul |]; assumption.
  - destruct f as [| f]; [lia |]. cbn [skip_whitespace_and_comments].
    rewrite (at_cursor_peek _ _ _ _ Hc), Hsp.
    destruct (at_cursor_consume _ _ _ _ Hc) as [Hc' _].
    apply (IH f (consume s) (pre ++ [c]) Hc').
    rewrite (at_cursor_remaining _ _ _ Hc').
    rewrite (at_cursor_remaining _ _ _ Hc) in Hf. cbn in Hf. lia.
  - destruct f as [| f]; [lia |]. cbn [skip_whitespace_and_comments].
    rewrite (at_cursor_peek _ _ _ _ Hc), (at_cursor_peek_next _ _ _ _ _ Hc).
    cbn [is_space SEMI N.eqb Pos.eqb orb andb].
    replace (is_space 59%N) with false by reflexivity.
    replace ((59 =? 59)%N) with true by reflexivity. cbn [andb].
    destruct (at_cursor_consume _ _ _ _ Hc) as [Hc1 _].
    destruct (at_cursor_consume _ _ _ _ Hc1) as [Hc2 _].
    pose proof (at_cursor_remaining _ _ _ Hc) as Hr0.
    pose proof (at_cursor_remaining _ _ _ Hc2) as Hr2.
    cbn [length] in Hr0.
    destruct (skip_comment_body f _ _ _ _ Hc2 Hbody Hrest)
      as (s1 & Hs1 & Hfol & Hend); [lia |].
    rewrite Hs1. cbn [bind].
    destruct Hend as [Hnul | Hc3].
    + destruct f as [| f]; [lia |].
      exists s1. split; [apply skip_at_nul |]; assumption.
    + apply (IH f s1 _ Hc3). destruct Hfol as (_ & _ & ?). lia.
Qed.

End LexerFacts.

(** * The lexer's contract *)

Section LexerClaims.
Context `{U : UnicodeDB}.

Lemma count_EOF_last pre eof :
  forallb (fun t => negb (is_EOF t)) pre = true -> Token.type eof = EOF ->
  count_EOF (pre ++ [eof]) = 1%nat.
Proof.
  intros Hpre Heof. unfold count_EOF. rewrite filter_app, length_app.
  cbn [filter]. unfold is_EOF at 2. rewrite Heof. cbn.
  induction pre as [| t pre IH]; [reflexivity |].
  cbn [forallb] in Hpre. apply andb_prop in Hpre. destruct Hpre as [Ht Hpre].
  cbn [filter]. destruct (is_EOF t); [discriminate |]. auto.
Qed.

(** C1: from every lexer state over a finite text, [tokenize] ends: it
    either returns a token list [pre ++ [eof]] whose last element is an
    [EOF] token and which holds exactly one [EOF] token, or it raises a
    [LexerError]; it never runs out of iterations, and every budget larger
    than the number of characters left gives that same outcome. *)
Theorem tokenize_terminates (s : Lexer) :
  ((exists tokens s',
       tokenize s = Ok (tokens, s') /\
       count_EOF tokens = 1%nat /\
       exists pre eof, tokens = pre ++ [eof] /\ Token.type eof = EOF) \/
   (exists e, tokenize s = Raise (ELexer e))) /\
  (forall fuel, (remaining s < fuel)%nat -> tokenize_loop fuel [] s = tokenize s).
Proof.
  assert (Hok := tokenize_loop_ok (S (remaining s)) [] s (Nat.lt_succ_diag_r _)).
  fold (tokenize s) in Hok. split.
  - destruct Hok as [(pre & eof & s' & H & Hty & Hpre) | (e & H)].
    + left. exists (pre ++ [eof]), s'. cbn [app] in H.
      split; [exact H |]. split; [now apply count_EOF_last |]. eauto.
    + right. eauto.
  - intros fuel Hf. eapply tokenize_loop_mono; [reflexivity | | lia].
    destruct Hok as [(pre & eof & s' & H & _) | (e & H)];
      fold (tokenize s); rewrite H; discriminate.
Qed.

(** C9: for every input made only of whitespace characters and line
    comments, [tokenize] returns exactly one token, the [EOF] token with
    lexeme [<EOF>]. *)
Theorem tokenize_blank (code : list char) :
  blank code ->
  exists l c s',
    tokenize (Lexer_init code) = Ok ([Token.mk EOF (str "<EOF>") l c], s').
Proof.
  intros Hb. set (s := Lexer_init code).
  destruct (skip_blank code Hb (S (remaining s)) s [] (at_cursor_init code))
    as (s0 & Hs0 & Hnul); [lia |].
  exists (line s0), (column s0), s0.
  unfold tokenize. cbn [tokenize_loop].
  unfold next_token, next_token_fuel. rewrite Hs0. cbn [bind]. cbv zeta.
  rewrite Hnul. reflexivity.
Qed.

(** C10: once [next_token] has returned an [EOF] token, the next call
    raises nothing, returns the same [EOF] token (same line and column)
    and leaves the lexer state as it was. *)
Theorem next_token_after_EOF (s s' : Lexer) (tok : Token) :
  next_token s = Ok (tok, s') ->
  Token.type tok = EOF ->
  next_token s' = Ok (tok, s') /\
  forall tok' s'', next_token s' = Ok (tok', s'') ->
    Token.type tok' = EOF /\ Token.line tok' = Token.line tok /\
    Token.column tok' = Token.column tok /\
    pos s'' = pos s' /\ line s'' = line s' /\ column s'' = column s'.
Proof.
  intros Hnt Hty.
  destruct (next_token_spec s) as [(tok0 & s0' & H0 & Hpull) | (e & H0)];
    rewrite H0 in Hnt; [| discriminate].
  injection Hnt as -> ->.
  destruct Hpull as (s0 & _ & _ & _ & Hl & Hc & [Heof | Hne]).
  2:{ destruct Hne as (Hne & _). contradiction. }
  destruct Heof as (_ & -> & Hnul & Hlex).
  assert (Heq : next_token s0 = Ok (tok, s0)).
  { rewrite next_token_at_nul by assumption.
    destruct tok as [ty lx l c]. cbn in *. congruence. }
  split; [exact Heq |].
  intros tok' s'' H. rewrite Heq in H. injection H as <- <-.
  repeat split; assumption || reflexivity.
Qed.

(** The skip phase is idempotent, so a pull from [s] is the pull from the
    state [s0] in which the skip phase of [s] ends. *)
Lemma skip_fixed f s s0 :
  (remaining s < f)%nat ->
  skip_whitespace_and_comments f s = Ok s0 ->
  follows s s0 /\ forall f', skip_whitespace_and_comments (S f') s0 = Ok s0.
Proof.
  intros Hf Hs.
  destruct (skip_whitespace_and_comments_ok f s Hf) as (s1 & Hs1 & Hfol & Hsp & Hsemi).
  rewrite Hs in Hs1. injection Hs1 as <-. split; [assumption |].
  intros f'. cbn [skip_whitespace_and_comments]. now rewrite Hsp, Hsemi.
Qed.

Lemma next_token_from_start s s0 :
  skip_whitespace_and_comments (S (remaining s)) s = Ok s0 ->
  follows s s0 /\ next_token s = next_token s0.
Proof.
  intros Hs.
  destruct (skip_fixed (S (remaining s)) s s0 (Nat.lt_succ_diag_r _) Hs) as [Hfol Hfix].
  split; [assumption |].
  rewrite <- (next_token_fuel_enough (S (remaining s)) s0)
    by (destruct Hfol as (_ & _ & ?); lia).
  unfold next_token, next_token_fuel. now rewrite Hs, Hfix.
Qed.

(** C8: consuming a character moves the cursor one position on; a newline
    adds one to [line] and sets [column] to 1, any other character adds
    one to [column].  The line and column of a token are those of the
    state in which the skip phase ended, and every character of the token
    is consumed from that state on.  For two newlines, two spaces and an
    opening parenthesis, the parenthesis is reported at line 3, column 3. *)
Theorem position_tracking :
  (forall s, (pos s < length (text s))%nat ->
     pos (consume s) = (pos s + 1)%nat /\
     (nth (pos s) (text s) NUL = NL ->
        line (consume s) = (line s + 1)%Z /\ column (consume s) = 1%Z) /\
     (nth (pos s) (text s) NUL <> NL ->
        line (consume s) = line s /\ column (consume s) = (column s + 1)%Z)) /\
  (forall s tok s', next_token s = Ok (tok, s') ->
     exists s0,
       skip_whitespace_and_comments (S (remaining s)) s = Ok s0 /\
       Token.line tok = line s0 /\ Token.column tok = column s0 /\
       follows s0 s') /\
  next_token (Lexer_init ([NL; NL] ++ str "  ("))
  = Ok (Token.mk LPAREN (str "(") 3 3,
        mkLexer ([NL; NL] ++ str "  (") 5 3 4).
Proof.
  split; [| split].
  - intros s Hlt. unfold consume.
    apply Nat.leb_gt in Hlt. rewrite Hlt.
    destruct (N.eqb_spec (nth (pos s) (text s) NUL) NL) as [E | E]; cbn;
      repeat split; intros; congruence || lia.
  - intros s tok s' H.
    destruct (next_token_spec s) as [(tok0 & s0' & H0 & Hpull) | (e & H0)];
      rewrite H0 in H; [| discriminate].
    injection H as <- <-.
    destruct Hpull as (s0 & Hs0 & _ & Hfol & Hl & Hc & _).
    exists s0. auto.
  - reflexivity.
Qed.

Lemma string_loop_unterminated l c body :
  ~ In DQUOTE body ->
  forall f buf s pre,
    at_cursor s pre body -> (remaining s < f)%nat ->
    string_loop f l c buf s = Raise (ELexer (UnterminatedString l c)).
Proof.
  induction body as [| x body IH]; intros Hq f buf s pre Hc Hf;
    (destruct f as [| f]; [lia |]); cbn [string_loop].
  - now rewrite (at_cursor_peek_nil _ _ Hc).
  - rewrite (at_cursor_peek _ _ _ _ Hc).
    destruct (N.eqb_spec x NUL); [reflexivity |].
    destruct (N.eqb_spec x DQUOTE) as [-> | _]; [cbn in Hq; tauto |].
    destruct (at_cursor_consume _ _ _ _ Hc) as [Hc' _].
    apply (IH (fun H => Hq (or_intror H)) f _ _ _ Hc').
    rewrite (at_cursor_remaining _ _ _ Hc').
    rewrite (at_cursor_remaining _ _ _ Hc) in Hf. cbn in Hf. lia.
Qed.

(** C5: when the skip phase of a pull ends at a double quote and no
    closing quote follows before the end of the input, [next_token] raises
    the unterminated-string error carrying the line and column of that
    opening quote.  For the input made of a double quote and [abc] the error reports 1:1 (the end
    of the input is at 1:5); after a newline and two spaces it reports
    2:3. *)
Theorem unterminated_string_position :
  (forall s s0 pre body,
     skip_whitespace_and_comments (S (remaining s)) s = Ok s0 ->
     at_cursor s0 pre (DQUOTE :: body) ->
     ~ In DQUOTE body ->
     next_token s = Raise (ELexer (UnterminatedString (line s0) (column s0)))) /\
  next_token (Lexer_init (DQUOTE :: str "abc"))
  = Raise (ELexer (UnterminatedString 1 1)) /\
  next_token (Lexer_init (NL :: str "  " ++ DQUOTE :: str "ab" ++ NL :: str "c"))
  = Raise (ELexer (UnterminatedString 2 3)).
Proof.
  split; [| split; reflexivity].
  intros s s0 pre body Hs Hc Hq.
  destruct (next_token_from_start s s0 Hs) as [_ ->].
  pose proof (at_cursor_peek _ _ _ _ Hc) as Hpk.
  unfold next_token, next_token_fuel.
  destruct (skip_fixed (S (remaining s)) s s0 (Nat.lt_succ_diag_r _) Hs) as [_ Hfix].
  rewrite Hfix. cbn [bind]. cbv zeta. rewrite Hpk.
  change (DQUOTE =? NUL)%N with false.
  change (punctuation DQUOTE) with (@None TokenType).
  change (isdigit DQUOTE) with false.
  change (DQUOTE =? DQUOTE)%N with true. cbv iota.
  unfold string_token.
  destruct (at_cursor_consume _ _ _ _ Hc) as [Hc' _].
  rewrite (string_loop_unterminated _ _ body Hq _ _ _ _ Hc'); [reflexivity |].
  rewrite (at_cursor_remaining _ _ _ Hc'), (at_cursor_remaining _ _ _ Hc).
  cbn. lia.
Qed.

Lemma str_eqb_eq a b : str_eqb a b = true <-> a = b.
Proof.
  revert b. induction a as [| x a IH]; intros [| y b]; cbn;
    try (split; [discriminate | discriminate]); [tauto |].
  rewrite andb_true_iff, N.eqb_eq, IH. split.
  - intros [-> ->]. reflexivity.
  - intros H. injection H as -> ->. auto.
Qed.

Lemma ident_loop_run r :
  forallb is_ident_part r = true ->
  forall f buf s pre rest,
    at_cursor s pre (r ++ rest) -> ends_lexeme rest = true ->
    (remaining s < f)%nat ->
    exists s', ident_loop f buf s = Ok (buf ++ r, s') /\
               at_cursor s' (pre ++ r) rest.
Proof.
  induction r as [| x r IH]; intros Hr f buf s pre rest Hc Hend Hf;
    (destruct f as [| f]; [lia |]); cbn [ident_loop]; cbn [app] in Hc.
  - exists s. rewrite !app_nil_r. split; [| assumption].
    destruct rest as [| c rest].
    + now rewrite (at_cursor_peek_nil _ _ Hc).
    + rewrite (at_cursor_peek _ _ _ _ Hc). cbn in Hend.
      apply negb_true_iff in Hend. now rewrite Hend.
  - cbn [forallb] in Hr. apply andb_prop in Hr. destruct Hr as [Hx Hr].
    rewrite (at_cursor_peek _ _ _ _ Hc), Hx.
    destruct (at_cursor_consume _ _ _ _ Hc) as [Hc' _].
    destruct (IH Hr f (buf ++ [x]) _ _ _ Hc' Hend) as (s' & Hs' & Hc2).
    { rewrite (at_cursor_remaining _ _ _ Hc').
      rewrite (at_cursor_remaining _ _ _ Hc) in Hf. cbn in Hf. lia. }
    exists s'. rewrite <- !app_assoc in *. auto.
Qed.

Lemma is_ident_start_dispatch c :
  is_ident_start c = true ->
  (c =? NUL)%N = false /\ punctuation c = None /\ (c =? DQUOTE)%N = false.
Proof.
  intros H. unfold punctuation.
  repeat match goal with
         | |- context [(c =? ?k)%N] =>
             destruct (N.eqb_spec c k) as [-> | _]; [vm_compute in H; discriminate H |]
         end.
  auto.
Qed.

Lemma ident_token_run s s0 pre w rest :
  ident_shaped w = true ->
  skip_whitespace_and_comments (S (remaining s)) s = Ok s0 ->
  at_cursor s0 pre (w ++ rest) -> ends_lexeme rest = true ->
  exists s',
    next_token s = Ok (Token.mk (keyword_type w) w (line s0) (column s0), s') /\
    at_cursor s' (pre ++ w) rest.
Proof.
  intros Hw Hs Hc Hend.
  destruct w as [| c r]; [discriminate |]. cbn [ident_shaped] in Hw.
  apply andb_prop in Hw. destruct Hw as [Hw Hr].
  apply andb_prop in Hw. destruct Hw as [Hstart Hnd].
  apply negb_true_iff in Hnd.
  destruct (next_token_from_start s s0 Hs) as [_ ->].
  destruct (skip_fixed (S (remaining s)) s s0 (Nat.lt_succ_diag_r _) Hs) as [_ Hfix].
  cbn [app] in Hc.
  pose proof (at_cursor_peek _ _ _ _ Hc) as Hpk.
  destruct (is_ident_start_dispatch c Hstart) as (Hnul & Hpunct & Hquote).
  destruct (at_cursor_consume _ _ _ _ Hc) as [Hc' _].
  destruct (ident_loop_run r Hr (S (remaining s0)) [c] _ _ _ Hc' Hend)
    as (s' & Hs' & Hc2).
  { rewrite (at_cursor_remaining _ _ _ Hc'), (at_cursor_remaining _ _ _ Hc).
    cbn. lia. }
  exists s'. split.
  - unfold next_token, next_token_fuel. rewrite Hfix. cbn [bind]. cbv zeta.
    rewrite Hpk, Hnul, Hpunct, Hnd, Hquote, Hstart.
    unfold ident_or_keyword. rewrite Hpk, Hs'. reflexivity.
  - rewrite <- app_assoc in Hc2. exact Hc2.
Qed.

Lemma keyword_type_reserved kw ty :
  In (kw, ty) reserved_words ->
  keyword_type (str kw) = ty /\ ident_shaped (str kw) = true /\ ty <> IDENT.
Proof.
  unfold reserved_words. cbn [In]. intros H.
  repeat (destruct H as [H | H];
          [injection H as <- <-; repeat split; discriminate || reflexivity |]).
  contradiction.
Qed.

Lemma keyword_type_other w :
  (forall kw ty, In (kw, ty) reserved_words -> w <> str kw) ->
  keyword_type w = IDENT.
Proof.
  intros H. unfold keyword_type.
  repeat match goal with
         | |- context [str_eqb w (str ?k)] =>
             let E := fresh "E" in
             destruct (str_eqb w (str k)) eqn:E;
             [apply str_eqb_eq in E; exfalso;
              refine (H k _ _ E); unfold reserved_words; cbn [In]; eauto 20 |]
         end.
  reflexivity.
Qed.

(** C7: when the skip phase of a pull ends in front of a reserved word
    that is followed by the end of the input or by a character that cannot
    continue an identifier, [next_token] returns a token of the word's
    dedicated kind (never [IDENT]; [BOOL] for [true] and [false]) whose
    lexeme is the word as written; in front of any other
    identifier-shaped lexeme it returns an [IDENT] token with that lexeme. *)
Theorem keyword_classification :
  (forall kw ty s s0 pre rest,
     In (kw, ty) reserved_words ->
     skip_whitespace_and_comments (S (remaining s)) s = Ok s0 ->
     at_cursor s0 pre (str kw ++ rest) -> ends_lexeme rest = true ->
     ty <> IDENT /\
     exists s',
       next_token s = Ok (Token.mk ty (str kw) (line s0) (column s0), s') /\
       at_cursor s' (pre ++ str kw) rest) /\
  (forall w s s0 pre rest,
     ident_shaped w = true ->
     (forall kw ty, In (kw, ty) reserved_words -> w <> str kw) ->
     skip_whitespace_and_comments (S (remaining s)) s = Ok s0 ->
     at_cursor s0 pre (w ++ rest) -> ends_lexeme rest = true ->
     exists s',
       next_token s = Ok (Token.mk IDENT w (line s0) (column s0), s') /\
       at_cursor s' (pre ++ w) rest).
Proof.
  split.
  - intros kw ty s s0 pre rest Hin Hs Hc Hend.
    destruct (keyword_type_reserved kw ty Hin) as (Hk & Hshape & Hne).
    split; [assumption |].
    destruct (ident_token_run s s0 pre (str kw) rest Hshape Hs Hc Hend)
      as (s' & Hnt & Hc').
    exists s'. rewrite Hk in Hnt. auto.
  - intros w s s0 pre rest Hshape Hother Hs Hc Hend.
    destruct (ident_token_run s s0 pre w rest Hshape Hs Hc Hend)
      as (s' & Hnt & Hc').
    exists s'. rewrite (keyword_type_other w Hother) in Hnt. auto.
Qed.

End LexerClaims.

(** * Properties of the parser *)

(** ** Trees *)

Section NodeInduction.
Variable P : Node -> Prop.
Hypothesis step : forall k v cs, Forall P cs -> P (mkNode k v cs).

Fixpoint Node_ind_nested (n : Node) : P n :=
  match n with
  | mkNode k v cs =>
      step k v cs
        ((fix all (l : list Node) : Forall P l :=
            match l with
            | [] => Forall_nil P
            | c :: l' => Forall_cons c (Node_ind_nested c) (all l')
            end) cs)
  end.
End NodeInduction.

Lemma all_nodes_unfold P n :
  all_nodes P n = P n && forallb (all_nodes P) (children n).
Proof. destruct n; reflexivity. Qed.

Lemma all_nodes_impl (P Q : Node -> bool) :
  (forall n, P n = true -> Q n = true) ->
  forall n, all_nodes P n = true -> all_nodes Q n = true.
Proof.
  intros HPQ n. induction n as [k v cs IH] using Node_ind_nested.
  cbn [all_nodes]. rewrite !andb_true_iff. intros [Hn Hcs].
  split; [auto |].
  rewrite forallb_forall in *. rewrite Forall_forall in IH. auto.
Qed.

Lemma forallb_snoc {A} (f : A -> bool) l x :
  forallb f l = true -> f x = true -> forallb f (l ++ [x]) = true.
Proof. intros Hl Hx. rewrite forallb_app. cbn. now rewrite Hl, Hx. Qed.

(** ** Outcomes of [bind] *)

Lemma bind_Ok {A B} (m : result A) (k : A -> result B) b :
  bind m k = Ok b -> exists a, m = Ok a /\ k a = Ok b.
Proof. destruct m; cbn; intros H; try discriminate. eauto. Qed.

Lemma refines_refl {A} (r : result A) : refines r r.
Proof. now right. Qed.

Lemma refines_bind {A B} (m m' : result A) (k k' : A -> result B) :
  refines m m' -> (forall a, refines (k a) (k' a)) ->
  refines (bind m k) (bind m' k').
Proof.
  intros [-> | ->] Hk; [now left |].
  destruct m; cbn; auto using refines_refl.
Qed.

Lemma refines_defined {A} (r r' : result A) :
  refines r r' -> r <> OutOfFuel -> r' = r.
Proof. intros [-> | ->]; congruence. Qed.

(** ** The invariant of the trees that the rules build *)

Ltac bind_inv H :=
  let x := fresh "x" in
  let E := fresh "E" in
  apply bind_Ok in H; destruct H as (x & E & H);
  try (destruct x as [? ?]).

Section ParserFacts.
Context `{U : UnicodeDB}.

Lemma Parser_match_Ok ty p tok p' :
  Parser_match ty p = Ok (tok, p') ->
  Token.type (lookahead p) = ty /\ tok = lookahead p /\ Parser_consume p = Ok p'.
Proof.
  unfold Parser_match.
  destruct (TokenType_eqb_spec (Token.type (lookahead p)) ty) as [E | E];
    [| discriminate].
  intros H. bind_inv H. injection H as <- <-. auto.
Qed.

Lemma type_in_spec t l : type_in t l = true <-> In t l.
Proof.
  unfold type_in. rewrite existsb_exists. split.
  - intros (x & Hin & Hx). apply TokenType_eqb_eq in Hx. now subst.
  - intros H. exists t. split; [assumption | now apply TokenType_eqb_eq].
Qed.

Lemma is_param_all_ok n : is_param n = true -> all_nodes node_ok n = true.
Proof.
  destruct n as [k v cs]. unfold is_param, has_kind. cbn [kind value children].
  rewrite andb_true_iff. intros [Hk Hshape].
  apply String.eqb_eq in Hk. subst k.
  destruct v; [| discriminate]. destruct cs; [| discriminate]. reflexivity.
Qed.

Lemma parse_atom_ok p n p' :
  parse_atom p = Ok (n, p') -> all_nodes node_ok n = true.
Proof.
  unfold parse_atom.
  repeat match goal with
         | |- context [TokenType_eqb ?a ?b] => destruct (TokenType_eqb a b)
         end; intros H; try discriminate H;
    bind_inv H; injection H as <- <-; reflexivity.
Qed.

Section RulesOk.
Variable parse_expr_rec : Parser -> result (Node * Parser).
Variable fuel : nat.
Hypothesis rec_ok :
  forall p n p', parse_expr_rec p = Ok (n, p') -> all_nodes node_ok n = true.

Lemma exprs_loop_ok n :
  forall exprs p res p',
    forallb (all_nodes node_ok) exprs = true ->
    exprs_loop parse_expr_rec n exprs p = Ok (res, p') ->
    forallb (all_nodes node_ok) res = true /\
    ((res = exprs /\ p' = p) \/ (length exprs < length res)%nat) /\
    type_in (Token.type (lookahead p')) [RPAREN; EOF] = true.
Proof.
  induction n as [| n IH]; intros exprs p res p' Hacc H; [discriminate H |].
  cbn [exprs_loop] in H.
  destruct (type_in (Token.type (lookahead p)) [RPAREN; EOF]) eqn:Hin;
    cbn [negb] in H.
  - injection H as <- <-. auto.
  - bind_inv H.
    destruct (IH _ _ _ _ (forallb_snoc _ _ _ Hacc (rec_ok _ _ _ E)) H)
      as (Hres & Hlen & Hla).
    repeat split; try assumption. right.
    destruct Hlen as [[-> _] | Hlen]; rewrite ?length_app in *; cbn in *; lia.
Qed.

Lemma params_loop_ok n :
  forall params p res p',
    forallb is_param params = true ->
    params_loop n params p = Ok (res, p') ->
    forallb is_param res = true.
Proof.
  induction n as [| n IH]; intros params p res p' Hacc H; [discriminate H |].
  cbn [params_loop] in H.
  destruct (TokenType_eqb (Token.type (lookahead p)) IDENT).
  - bind_inv H. eapply IH; [| exact H]. now apply forallb_snoc.
  - injection H as <- <-. assumption.
Qed.

Lemma bindings_loop_ok n :
  forall bindings p res p',
    forallb (all_nodes node_ok) bindings = true ->
    bindings_loop parse_expr_rec n bindings p = Ok (res, p') ->
    forallb (all_nodes node_ok) res = true.
Proof.
  induction n as [| n IH]; intros bindings p res p' Hacc H; [discriminate H |].
  cbn [bindings_loop] in H.
  destruct (TokenType_eqb (Token.type (lookahead p)) IDENT).
  - bind_inv H. bind_inv H. eapply IH; [| exact H].
    apply forallb_snoc; [assumption |].
    cbn. now rewrite (rec_ok _ _ _ E0).
  - injection H as <- <-. assumption.
Qed.

Lemma parse_if_expr_ok p n p' :
  parse_if_expr parse_expr_rec p = Ok (n, p') -> all_nodes node_ok n = true.
Proof.
  unfold parse_if_expr. intros H. do 3 bind_inv H.
  destruct (negb (TokenType_eqb (Token.type (lookahead p2)) RPAREN)).
  - bind_inv H. injection H as <- <-. cbn.
    now rewrite (rec_ok _ _ _ E0), (rec_ok _ _ _ E1), (rec_ok _ _ _ E2).
  - injection H as <- <-. cbn.
    now rewrite (rec_ok _ _ _ E0), (rec_ok _ _ _ E1).
Qed.

(** [parse_do_expr] can return a childless [DoExpr], but only with the
    [EOF] token as lookahead. *)
Lemma parse_do_expr_ok p n p' :
  parse_do_expr parse_expr_rec fuel p = Ok (n, p') ->
  all_nodes node_ok n = true \/ Token.type (lookahead p') = EOF.
Proof.
  unfold parse_do_expr. intros H. bind_inv H.
  destruct (TokenType_eqb_spec (Token.type (lookahead p0)) RPAREN) as [Hr | Hr];
    [discriminate H |].
  bind_inv H. injection H as <- <-.
  destruct (exprs_loop_ok _ [] _ _ _ eq_refl E0) as (Hres & Hlen & Hla).
  destruct Hlen as [[-> ->] | Hlen].
  - right. apply type_in_spec in Hla. cbn in Hla. intuition congruence.
  - left. cbn [all_nodes]. rewrite Hres, andb_true_r.
    unfold node_ok, list_arity_ok, defn_shape_ok, do_arity_ok, if_arity_ok.
    cbn. destruct l; [cbn in Hlen; lia | reflexivity].
Qed.

Lemma parse_def_expr_ok p n p' :
  parse_def_expr parse_expr_rec p = Ok (n, p') -> all_nodes node_ok n = true.
Proof.
  unfold parse_def_expr. intros H. do 3 bind_inv H.
  injection H as <- <-. cbn. now rewrite (rec_ok _ _ _ E1).
Qed.

Lemma parse_defn_expr_ok p n p' :
  parse_defn_expr parse_expr_rec fuel p = Ok (n, p') ->
  all_nodes node_ok n = true.
Proof.
  unfold parse_defn_expr. intros H. do 6 bind_inv H.
  injection H as <- <-.
  pose proof (params_loop_ok _ [] _ _ _ eq_refl E2) as Hparams.
  cbn [all_nodes forallb]. rewrite (rec_ok _ _ _ E4).
  unfold node_ok at 1 2, list_arity_ok, defn_shape_ok, do_arity_ok, if_arity_ok.
  cbn. rewrite Hparams. cbn.
  rewrite andb_true_r. rewrite forallb_forall in *.
  intros x Hx. apply is_param_all_ok. auto.
Qed.

Lemma parse_let_expr_ok p n p' :
  parse_let_expr parse_expr_rec fuel p = Ok (n, p') ->
  all_nodes node_ok n = true.
Proof.
  unfold parse_let_expr. intros H. do 5 bind_inv H.
  injection H as <- <-.
  pose proof (bindings_loop_ok _ [] _ _ _ eq_refl E1) as Hb.
  cbn. now rewrite Hb, (rec_ok _ _ _ E3).
Qed.

Lemma parse_app_expr_ok p n p' :
  parse_app_expr parse_expr_rec fuel p = Ok (n, p') ->
  all_nodes node_ok n = true.
Proof.
  unfold parse_app_expr. intros H.
  destruct (negb _); [discriminate H |].
  do 2 bind_inv H. injection H as <- <-.
  destruct (exprs_loop_ok _ [] _ _ _ eq_refl E0) as (Hres & _).
  cbn. exact Hres.
Qed.

Lemma parse_form_ok p n p' :
  parse_form parse_expr_rec fuel p = Ok (n, p') ->
  all_nodes node_ok n = true \/ Token.type (lookahead p') = EOF.
Proof.
  unfold parse_form.
  repeat match goal with
         | |- context [TokenType_eqb ?a ?b] => destruct (TokenType_eqb a b)
         end;
    eauto using parse_if_expr_ok, parse_do_expr_ok, parse_def_expr_ok,
      parse_defn_expr_ok, parse_let_expr_ok, parse_app_expr_ok.
Qed.

Lemma parse_list_expr_ok p n p' :
  parse_list_expr parse_expr_rec fuel p = Ok (n, p') ->
  all_nodes node_ok n = true.
Proof.
  unfold parse_list_expr. intros H. do 3 bind_inv H.
  injection H as <- <-.
  apply Parser_match_Ok in E1. destruct E1 as (Hty & _).
  destruct (parse_form_ok _ _ _ E0) as [Hok | Heof]; [| congruence].
  cbn. now rewrite Hok.
Qed.

Lemma parse_expr_rule_ok p n p' :
  parse_expr_rule parse_expr_rec fuel p = Ok (n, p') ->
  all_nodes node_ok n = true.
Proof.
  unfold parse_expr_rule.
  destruct (type_in _ _); [apply parse_atom_ok |].
  destruct (TokenType_eqb _ _); [apply parse_list_expr_ok | discriminate].
Qed.

End RulesOk.

Lemma parse_expr_ok fuel :
  forall p n p', parse_expr fuel p = Ok (n, p') -> all_nodes node_ok n = true.
Proof.
  induction fuel as [| f IH]; intros p n p' H; [discriminate H |].
  cbn [parse_expr] in H. eapply parse_expr_rule_ok; eauto.
Qed.

Lemma parse_loop_ok fuel n :
  forall exprs p tree p',
    forallb (all_nodes node_ok) exprs = true ->
    parse_loop fuel n exprs p = Ok (tree, p') ->
    all_nodes node_ok tree = true.
Proof.
  induction n as [| n IH]; intros exprs p tree p' Hacc H; [discriminate H |].
  cbn [parse_loop] in H.
  destruct (negb _).
  - bind_inv H. eapply IH; [| exact H].
    apply forallb_snoc; [assumption |]. eapply parse_expr_ok; eauto.
  - injection H as <- <-. cbn. exact Hacc.
Qed.

(** Every tree that [parse] returns satisfies the arity invariants at
    every node. *)
Lemma parse_ok fuel p tree p' :
  parse fuel p = Ok (tree, p') -> all_nodes node_ok tree = true.
Proof. apply parse_loop_ok. reflexivity. Qed.

(** ** A larger budget does not change what the parser returns *)

Section RulesRefine.
Variables parse_expr_rec parse_expr_rec' : Parser -> result (Node * Parser).
Variables fuel fuel' : nat.
Hypothesis rec_refines :
  forall p, refines (parse_expr_rec p) (parse_expr_rec' p).
Hypothesis fuel_le : (fuel <= fuel')%nat.

Lemma exprs_loop_refines n : forall n' exprs p,
  (n <= n')%nat ->
  refines (exprs_loop parse_expr_rec n exprs p)
          (exprs_loop parse_expr_rec' n' exprs p).
Proof.
  induction n as [| n IH]; intros n' exprs p Hle; [now left |].
  destruct n' as [| n']; [lia |]. cbn [exprs_loop].
  destruct (negb _); [| apply refines_refl].
  apply refines_bind; [apply rec_refines |].
  intros [e p']. apply IH. lia.
Qed.

Lemma params_loop_refines n : forall n' params p,
  (n <= n')%nat ->
  refines (params_loop n params p) (params_loop n' params p).
Proof.
  induction n as [| n IH]; intros n' params p Hle; [now left |].
  destruct n' as [| n']; [lia |]. cbn [params_loop].
  destruct (TokenType_eqb _ _); [| apply refines_refl].
  apply refines_bind; [apply refines_refl |].
  intros p'. apply IH. lia.
Qed.

Lemma bindings_loop_refines n : forall n' bindings p,
  (n <= n')%nat ->
  refines (bindings_loop parse_expr_rec n bindings p)
          (bindings_loop parse_expr_rec' n' bindings p).
Proof.
  induction n as [| n IH]; intros n' bindings p Hle; [now left |].
  destruct n' as [| n']; [lia |]. cbn [bindings_loop].
  destruct (TokenType_eqb _ _); [| apply refines_refl].
  apply refines_bind; [apply refines_refl |]. intros p1.
  apply refines_bind; [apply rec_refines |].
  intros [v p2]. apply IH. lia.
Qed.

Ltac refines_step :=
  match goal with
  | |- refines ?r ?r => apply refines_refl
  | |- refines (parse_expr_rec _) (parse_expr_rec' _) => apply rec_refines
  | |- refines (exprs_loop _ _ _ _) (exprs_loop _ _ _ _) =>
      apply exprs_loop_refines; exact fuel_le
  | |- refines (params_loop _ _ _) (params_loop _ _ _) =>
      apply params_loop_refines; exact fuel_le
  | |- refines (bindings_loop _ _ _ _) (bindings_loop _ _ _ _) =>
      apply bindings_loop_refines; exact fuel_le
  | |- refines (bind _ _) (bind _ _) =>
      apply refines_bind; [| intros ?]
  | |- refines (match ?x with (_, _) => _ end) _ => destruct x
  | |- refines (if ?b then _ else _) (if ?b then _ else _) => destruct b
  end.

Lemma parse_form_refines p :
  refines (parse_form parse_expr_rec fuel p)
          (parse_form parse_expr_rec' fuel' p).
Proof.
  unfold parse_form, parse_if_expr, parse_do_expr, parse_def_expr,
    parse_defn_expr, parse_let_expr, parse_app_expr.
  cbv zeta. repeat refines_step.
Qed.

Lemma parse_expr_rule_refines p :
  refines (parse_expr_rule parse_expr_rec fuel p)
          (parse_expr_rule parse_expr_rec' fuel' p).
Proof.
  unfold parse_expr_rule, parse_list_expr. cbv zeta.
  repeat refines_step. apply parse_form_refines.
Qed.

End RulesRefine.

Lemma parse_expr_refines f : forall f' p,
  (f <= f')%nat -> refines (parse_expr f p) (parse_expr f' p).
Proof.
  induction f as [| f IH]; intros f' p Hle; [now left |].
  destruct f' as [| f']; [lia |]. cbn [parse_expr].
  apply parse_expr_rule_refines; [| lia]. intros q. apply IH. lia.
Qed.

Lemma parse_loop_refines f f' n : forall n' exprs p,
  (f <= f')%nat -> (n <= n')%nat ->
  refines (parse_loop f n exprs p) (parse_loop f' n' exprs p).
Proof.
  induction n as [| n IH]; intros n' exprs p Hf Hn; [now left |].
  destruct n' as [| n']; [lia |]. cbn [parse_loop].
  destruct (negb _); [| apply refines_refl].
  apply refines_bind; [now apply parse_expr_refines |].
  intros [e p']. apply IH; lia.
Qed.

Lemma parse_text_refines f f' code :
  (f <= f')%nat -> refines (parse_text f code) (parse_text f' code).
Proof.
  intros Hle. unfold parse_text, parse.
  apply refines_bind; [apply refines_refl |]. intros p.
  apply refines_bind; [now apply parse_loop_refines |].
  intros [tree p']. apply refines_refl.
Qed.

(** A run that ends within budget [f] ends the same way on any larger
    budget. *)
Lemma parse_text_enough f f' code r :
  parse_text f code = r -> r <> OutOfFuel -> (f <= f')%nat ->
  parse_text f' code = r.
Proof.
  intros H Hr Hle. subst r.
  apply (refines_defined _ _ (parse_text_refines f f' code Hle) Hr).
Qed.

(** ** The parser ends on every input *)

Lemma below_Ok {A} m (a : A) p : (tokens_left p < m)%nat -> below m (Ok (a, p)).
Proof.
  intros H. split; [discriminate |]. intros a' p' E. now injection E as <- <-.
Qed.

Lemma below_Raise {A} m e : below m (@Raise (A * Parser) e).
Proof. split; discriminate. Qed.

Lemma below_weaken {A} m m' (r : result (A * Parser)) :
  below m r -> (m <= m')%nat -> below m' r.
Proof.
  intros [Hd Hb] Hle. split; [assumption |].
  intros a p' E. specialize (Hb a p' E). lia.
Qed.

Lemma below_bind {A B} m m' (r : result (A * Parser))
    (k : A * Parser -> result (B * Parser)) :
  below m r ->
  (forall a p', (tokens_left p' < m)%nat -> below m' (k (a, p'))) ->
  below m' (bind r k).
Proof.
  intros [Hd Hb] Hk. destruct r as [[a p'] | e |]; cbn [bind].
  - apply Hk. now apply (Hb a p').
  - apply below_Raise.
  - congruence.
Qed.

Lemma Parser_consume_below p :
  is_EOF (lookahead p) = false ->
  (exists p', Parser_consume p = Ok p' /\ (tokens_left p' < tokens_left p)%nat) \/
  (exists e, Parser_consume p = Raise e).
Proof.
  intros Hne. unfold Parser_consume.
  destruct (next_token_spec (lexer p)) as [(tok & l' & H & Hpull) | (e & H)];
    rewrite H; cbn [bind]; [| right; eauto].
  left. eexists. split; [reflexivity |].
  unfold tokens_left. cbn [lexer lookahead]. rewrite Hne.
  destruct Hpull as (s0 & _ & (_ & _ & H0) & (_ & _ & H1) & _ & _ & [Heof | Hn]).
  - destruct Heof as (Hty & _). unfold is_EOF. rewrite Hty. cbn. lia.
  - destruct Hn as (_ & _ & Hlt). destruct (is_EOF tok); lia.
Qed.

Lemma Parser_match_below ty p :
  ty <> EOF -> below (tokens_left p) (Parser_match ty p).
Proof.
  intros Hty. unfold Parser_match.
  destruct (TokenType_eqb_spec (Token.type (lookahead p)) ty) as [E | E];
    [| apply below_Raise].
  assert (Hne : is_EOF (lookahead p) = false).
  { unfold is_EOF. apply TokenType_eqb_neq. congruence. }
  destruct (Parser_consume_below p Hne) as [(p' & -> & Hlt) | (e & ->)];
    cbn [bind]; [now apply below_Ok | apply below_Raise].
Qed.

Lemma parse_atom_below p : below (tokens_left p) (parse_atom p).
Proof.
  unfold parse_atom.
  repeat match goal with
         | |- context [TokenType_eqb ?a ?b] =>
             let E := fresh "E" in
             destruct (TokenType_eqb_spec a b) as [E | E]
         end;
    try apply below_Raise;
    (assert (Hne : is_EOF (lookahead p) = false)
       by (unfold is_EOF; apply TokenType_eqb_neq; congruence));
    (destruct (Parser_consume_below p Hne) as [(p' & -> & Hlt) | (err & ->)];
     cbn [bind]; [now apply below_Ok | apply below_Raise]).
Qed.

Section RulesTotal.
Variable parse_expr_rec : Parser -> result (Node * Parser).
Variable fuel : nat.
Hypothesis rec_total : total_on fuel parse_expr_rec.

Lemma exprs_loop_below n : forall exprs p,
  (tokens_left p < n)%nat -> (n <= fuel)%nat ->
  below (S (tokens_left p)) (exprs_loop parse_expr_rec n exprs p).
Proof.
  induction n as [| n IH]; intros exprs p Hn Hf; [lia |].
  cbn [exprs_loop].
  destruct (negb _); [| apply below_Ok; lia].
  eapply below_bind; [apply rec_total; lia |].
  intros e p' Hlt. eapply below_weaken; [apply IH; lia | lia].
Qed.

Lemma params_loop_below n : forall params p,
  (tokens_left p < n)%nat ->
  below (S (tokens_left p)) (params_loop n params p).
Proof.
  induction n as [| n IH]; intros params p Hn; [lia |].
  cbn [params_loop].
  destruct (TokenType_eqb_spec (Token.type (lookahead p)) IDENT) as [E | E];
    [| apply below_Ok; lia].
  assert (Hne : is_EOF (lookahead p) = false).
  { unfold is_EOF. apply TokenType_eqb_neq. congruence. }
  destruct (Parser_consume_below p Hne) as [(p' & -> & Hlt) | (e & ->)];
    cbn [bind]; [| apply below_Raise].
  eapply below_weaken; [apply IH; lia | lia].
Qed.

Lemma bindings_loop_below n : forall bindings p,
  (tokens_left p < n)%nat -> (n <= fuel)%nat ->
  below (S (tokens_left p)) (bindings_loop parse_expr_rec n bindings p).
Proof.
  induction n as [| n IH]; intros bindings p Hn Hf; [lia |].
  cbn [bindings_loop].
  destruct (TokenType_eqb_spec (Token.type (lookahead p)) IDENT) as [E | E];
    [| apply below_Ok; lia].
  assert (Hne : is_EOF (lookahead p) = false).
  { unfold is_EOF. apply TokenType_eqb_neq. congruence. }
  destruct (Parser_consume_below p Hne) as [(p1 & -> & Hlt) | (e & ->)];
    cbn [bind]; [| apply below_Raise].
  eapply below_bind; [apply rec_total; lia |].
  intros v p2 Hlt2. eapply below_weaken; [apply IH; lia | lia].
Qed.

Ltac below_step :=
  match goal with
  | |- below _ (Ok _) => apply below_Ok; lia
  | |- below _ (Parser_error _ _) => apply below_Raise
  | |- below _ (bind (Parser_match _ _) _) =>
      eapply below_bind; [apply Parser_match_below; discriminate | intros ? ? ?]
  | |- below _ (bind (parse_expr_rec _) _) =>
      eapply below_bind; [apply rec_total; lia | intros ? ? ?]
  | |- below _ (bind (exprs_loop _ _ _ _) _) =>
      eapply below_bind; [apply exprs_loop_below; lia | intros ? ? ?]
  | |- below _ (bind (params_loop _ _ _) _) =>
      eapply below_bind; [apply params_loop_below; lia | intros ? ? ?]
  | |- below _ (bind (bindings_loop _ _ _ _) _) =>
      eapply below_bind; [apply bindings_loop_below; lia | intros ? ? ?]
  | |- below _ (if ?b then _ else _) => destruct b
  end.

Lemma parse_app_expr_below p :
  (tokens_left p < fuel)%nat ->
  below (tokens_left p) (parse_app_expr parse_expr_rec fuel p).
Proof.
  intros Hf. unfold parse_app_expr. cbv zeta.
  destruct (type_in _ _) eqn:Hin; cbn [negb]; [| apply below_Raise].
  assert (Hne : is_EOF (lookahead p) = false).
  { unfold is_EOF. apply TokenType_eqb_neq. intros E. rewrite E in Hin.
    discriminate Hin. }
  destruct (Parser_consume_below p Hne) as [(p1 & -> & Hlt) | (e & ->)];
    cbn [bind]; [| apply below_Raise].
  repeat below_step.
Qed.

Lemma parse_form_below p :
  (tokens_left p < fuel)%nat ->
  below (tokens_left p) (parse_form parse_expr_rec fuel p).
Proof.
  intros Hf. unfold parse_form. cbv zeta.
  repeat match goal with
         | |- context [TokenType_eqb ?a ?b] => destruct (TokenType_eqb a b)
         end;
    [unfold parse_if_expr | unfold parse_do_expr | unfold parse_def_expr
     | unfold parse_defn_expr | unfold parse_let_expr
     | now apply parse_app_expr_below];
    cbv zeta; repeat below_step.
Qed.

Lemma parse_expr_rule_below p :
  (tokens_left p < S fuel)%nat ->
  below (tokens_left p) (parse_expr_rule parse_expr_rec fuel p).
Proof.
  intros Hf. unfold parse_expr_rule. cbv zeta.
  destruct (type_in _ _); [apply parse_atom_below |].
  destruct (TokenType_eqb _ _); [| apply below_Raise].
  unfold parse_list_expr.
  eapply below_bind; [apply Parser_match_below; discriminate |].
  intros t p1 H1.
  eapply below_bind; [apply parse_form_below; lia |].
  intros inside p2 H2. repeat below_step.
Qed.

End RulesTotal.

Lemma parse_expr_total fuel : total_on fuel (parse_expr fuel).
Proof.
  induction fuel as [| f IH]; intros p Hf; [lia |].
  cbn [parse_expr]. now apply parse_expr_rule_below.
Qed.

Lemma parse_loop_defined fuel n : forall exprs p,
  (tokens_left p < fuel)%nat -> (tokens_left p < n)%nat ->
  parse_loop fuel n exprs p <> OutOfFuel.
Proof.
  induction n as [| n IH]; intros exprs p Hf Hn; [lia |].
  cbn [parse_loop]. destruct (negb _); [| discriminate].
  destruct (parse_expr_total fuel p Hf) as [Hd Hb].
  destruct (parse_expr fuel p) as [[e p'] | err |]; cbn [bind];
    [| discriminate | congruence].
  specialize (Hb e p' eq_refl). apply IH; lia.
Qed.

(** With a budget above the length of the program text, the parser run
    ends with a tree or an error. *)
Lemma parse_text_defined fuel code :
  (length code < fuel)%nat -> parse_text fuel code <> OutOfFuel.
Proof.
  intros Hf. unfold parse_text, Parser_init.
  destruct (next_token_spec (Lexer_init code)) as [(tok & l' & H & Hpull) | (e & H)];
    rewrite H; cbn [bind]; [| discriminate].
  assert (Hleft : (tokens_left (mkParser l' tok) <= length code)%nat).
  { unfold tokens_left. cbn [lexer lookahead].
    destruct Hpull as (s0 & _ & (_ & _ & H0) & (_ & _ & H1) & _ & _ & [Heof | Hn]).
    - destruct Heof as (Hty & _). unfold is_EOF. rewrite Hty.
      cbn in *. unfold remaining in *. cbn in *. lia.
    - destruct Hn as (_ & _ & Hlt). unfold remaining in *. cbn in *.
      destruct (is_EOF tok); lia. }
  pose proof (parse_loop_defined fuel fuel [] (mkParser l' tok)) as Hd.
  unfold parse. destruct (parse_loop fuel fuel [] (mkParser l' tok)) as [[t q] | e |];
    cbn [bind]; try discriminate.
  exfalso. apply Hd; [lia | lia | reflexivity].
Qed.

(** * The parser's contract *)

(** C2: in every tree that [parse] returns, each [ListExpr] node has
    exactly one child and each [DefnExpr] node has a name as value and
    exactly two children, the first a [ParamList] whose children are
    [Param] leaves.  [parse_list_expr] builds its node around the one form
    it parsed; [parse_defn_expr] stores the lexeme of the identifier that
    follows [defn] as value, the parameter list first and the body, parsed
    by [parse_expr], second. *)
Theorem list_and_defn_arity :
  (forall fuel p tree p',
     parse fuel p = Ok (tree, p') ->
     all_nodes (fun n => list_arity_ok n && defn_shape_ok n) tree = true) /\
  (forall rec fuel p n p',
     parse_list_expr rec fuel p = Ok (n, p') ->
     exists inside, n = mkNode "ListExpr" None [inside]) /\
  (forall rec fuel p n p',
     parse_defn_expr rec fuel p = Ok (n, p') ->
     exists t p1 name p2 params body p5,
       Parser_match DEFN p = Ok (t, p1) /\
       Parser_match IDENT p1 = Ok (name, p2) /\
       forallb is_param params = true /\
       rec p5 = Ok (body, p') /\
       n = mkNode "DefnExpr" (Some (Token.lexeme name))
             [mkNode "ParamList" None params; body]).
Proof.
  split; [| split].
  - intros fuel p tree p' H. apply parse_ok in H.
    revert H. apply all_nodes_impl. intros n. unfold node_ok.
    rewrite !andb_true_iff. tauto.
  - intros rec fuel p n p' H. unfold parse_list_expr in H.
    do 3 bind_inv H. injection H as <- <-. eauto.
  - intros rec fuel p n p' H. unfold parse_defn_expr in H.
    do 6 bind_inv H. injection H as <- <-.
    pose proof (params_loop_ok _ [] _ _ _ eq_refl E2) as Hparams.
    do 7 eexists. repeat split; eassumption.
Qed.

(** C3: after [if], the condition and the then-branch, [parse_if_expr]
    returns the two-child node without parsing further when the lookahead
    is [RPAREN], and otherwise parses one more expression as else-branch
    and returns the three-child node; its node is an [IfExpr] with two or
    three children, and so is every [IfExpr] node of a tree that [parse]
    returns.  [(if (< n 10) (print 1) (print 2))] parses to a [ListExpr]
    around an [IfExpr] with three [ListExpr] children. *)
Theorem if_else_branch :
  (forall rec p t p1 cond p2 then_branch p3,
     Parser_match IF_ p = Ok (t, p1) ->
     rec p1 = Ok (cond, p2) ->
     rec p2 = Ok (then_branch, p3) ->
     (Token.type (lookahead p3) = RPAREN ->
      parse_if_expr rec p = Ok (mkNode "IfExpr" None [cond; then_branch], p3)) /\
     (Token.type (lookahead p3) <> RPAREN ->
      parse_if_expr rec p =
        ('(else_branch, p4) <- rec p3 ;;
         Ok (mkNode "IfExpr" None [cond; then_branch; else_branch], p4)))) /\
  (forall rec p n p',
     parse_if_expr rec p = Ok (n, p') ->
     kind n = "IfExpr"%string /\
     (length (children n) = 2%nat \/ length (children n) = 3%nat)) /\
  (forall fuel p tree p',
     parse fuel p = Ok (tree, p') -> all_nodes if_arity_ok tree = true) /\
  (forall fuel, (5 <= fuel)%nat ->
     parse_text fuel (str "(if (< n 10) (print 1) (print 2))") = Ok if_example).
Proof.
  split; [| split; [| split]].
  - intros rec p t p1 cond p2 then_branch p3 Hm Hc Ht.
    unfold parse_if_expr. rewrite Hm. cbn [bind]. rewrite Hc. cbn [bind].
    rewrite Ht. cbn [bind].
    destruct (TokenType_eqb_spec (Token.type (lookahead p3)) RPAREN);
      cbn [negb]; split; intros; reflexivity || contradiction.
  - intros rec p n p' H. unfold parse_if_expr in H. do 3 bind_inv H.
    destruct (negb _).
    + bind_inv H. injection H as <- <-. cbn. auto.
    + injection H as <- <-. cbn. auto.
  - intros fuel p tree p' H. apply parse_ok in H.
    revert H. apply all_nodes_impl. intros n. unfold node_ok.
    rewrite !andb_true_iff. tauto.
  - intros fuel Hle.
    apply (parse_text_enough 5 fuel); [reflexivity | discriminate | exact Hle].
Qed.

(** C4: [(do)] raises the syntax error "mindestens einen Ausdruck
    erwartet" at its closing parenthesis; whenever the token after [do] is
    [RPAREN], [parse_do_expr] raises that error; and every [DoExpr] node
    of a tree that [parse] returns has at least one child. *)
Theorem do_requires_body :
  (forall fuel, (1 <= fuel)%nat ->
     parse_text fuel (str "(do)") =
     Raise (EParser (mkParserError "mindestens einen Ausdruck erwartet"
                       (Token.mk RPAREN (str ")") 1 4)))) /\
  (forall rec fuel p t p1,
     Parser_match DO p = Ok (t, p1) ->
     Token.type (lookahead p1) = RPAREN ->
     parse_do_expr rec fuel p =
     Raise (EParser (mkParserError "mindestens einen Ausdruck erwartet"
                       (lookahead p1)))) /\
  (forall fuel p tree p',
     parse fuel p = Ok (tree, p') -> all_nodes do_arity_ok tree = true).
Proof.
  split; [| split].
  - intros fuel Hle.
    apply (parse_text_enough 1 fuel); [reflexivity | discriminate | exact Hle].
  - intros rec fuel p t p1 Hm Hty. unfold parse_do_expr.
    rewrite Hm. cbn [bind]. rewrite Hty. reflexivity.
  - intros fuel p tree p' H. apply parse_ok in H.
    revert H. apply all_nodes_impl. intros n. unfold node_ok.
    rewrite !andb_true_iff. tauto.
Qed.

(** C6: [(+ 1 2] raises the syntax error that expected [RPAREN] and found
    the [EOF] token (at 1:7), so no tree is returned; whenever the form
    inside a list ends with [EOF] as lookahead, [parse_list_expr] raises
    that error. *)
Theorem missing_rparen :
  (forall fuel, (4 <= fuel)%nat ->
     parse_text fuel (str "(+ 1 2") =
     Raise (EParser (mkParserError ("erwartet " ++ TokenType_name RPAREN)
                       (Token.mk EOF (str "<EOF>") 1 7)))) /\
  (forall rec fuel p t p1 inside p2,
     Parser_match LPAREN p = Ok (t, p1) ->
     parse_form rec fuel p1 = Ok (inside, p2) ->
     Token.type (lookahead p2) = EOF ->
     parse_list_expr rec fuel p =
     Raise (EParser (mkParserError ("erwartet " ++ TokenType_name RPAREN)
                       (lookahead p2)))).
Proof.
  split.
  - intros fuel Hle.
    apply (parse_text_enough 4 fuel); [reflexivity | discriminate | exact Hle].
  - intros rec fuel p t p1 inside p2 Hm Hf Hty. unfold parse_list_expr.
    rewrite Hm. cbn [bind]. rewrite Hf. cbn [bind].
    unfold Parser_match. rewrite Hty. reflexivity.
Qed.

End ParserFacts.

(** * Further properties of the lexer *)

Section LexerMore.
Context `{U : UnicodeDB}.

Lemma at_cursor_peek_cases s pre rest :
  at_cursor s pre rest ->
  (rest = [] /\ peek s = NUL) \/
  (exists c r, rest = c :: r /\ peek s = c /\
               at_cursor (consume s) (pre ++ [c]) r).
Proof.
  intros Hc. destruct rest as [| c r].
  - left. split; [reflexivity | eapply at_cursor_peek_nil; eauto].
  - right. exists c, r. split; [reflexivity |].
    split; [eapply at_cursor_peek; eauto |].
    now destruct (at_cursor_consume _ _ _ _ Hc).
Qed.

(** What a finished loop has read, as a split of the text ahead. *)
Lemma number_loop_read f : forall buf s pre rest buf' s',
  number_loop f buf s = Ok (buf', s') ->
  at_cursor s pre rest ->
  exists ds rest',
    rest = ds ++ rest' /\ buf' = buf ++ ds /\ at_cursor s' (pre ++ ds) rest' /\
    forallb isdigit ds = true /\ isdigit (peek s') = false.
Proof.
  induction f as [| f IH]; intros buf s pre rest buf' s' H Hc; [discriminate H |].
  cbn [number_loop] in H.
  destruct (isdigit (peek s)) eqn:Hd.
  - destruct (at_cursor_peek_cases _ _ _ Hc) as [[-> Hnul] | (c & r & -> & Hpk & Hc')].
    { rewrite Hnul in Hd. discriminate Hd. }
    rewrite Hpk in *.
    destruct (IH _ _ _ _ _ _ H Hc') as (ds & rest' & -> & -> & Hc2 & Hds & Hend).
    exists (c :: ds), rest'. rewrite <- !app_assoc in *. cbn [app forallb] in *.
    rewrite Hd, Hds. auto.
  - injection H as <- <-. exists [], rest. rewrite !app_nil_r. auto.
Qed.

Lemma ident_loop_read f : forall buf s pre rest buf' s',
  ident_loop f buf s = Ok (buf', s') ->
  at_cursor s pre rest ->
  exists w rest',
    rest = w ++ rest' /\ buf' = buf ++ w /\ at_cursor s' (pre ++ w) rest' /\
    forallb is_ident_part w = true /\ is_ident_part (peek s') = false.
Proof.
  induction f as [| f IH]; intros buf s pre rest buf' s' H Hc; [discriminate H |].
  cbn [ident_loop] in H.
  destruct (is_ident_part (peek s)) eqn:Hd.
  - destruct (at_cursor_peek_cases _ _ _ Hc) as [[-> Hnul] | (c & r & -> & Hpk & Hc')].
    { rewrite Hnul in Hd. discriminate Hd. }
    rewrite Hpk in *.
    destruct (IH _ _ _ _ _ _ H Hc') as (w & rest' & -> & -> & Hc2 & Hw & Hend).
    exists (c :: w), rest'. rewrite <- !app_assoc in *. cbn [app forallb] in *.
    rewrite Hd, Hw. auto.
  - injection H as <- <-. exists [], rest. rewrite !app_nil_r. auto.
Qed.

Lemma string_loop_read f l k : forall buf s pre rest buf' s',
  string_loop f l k buf s = Ok (buf', s') ->
  at_cursor s pre rest ->
  exists body rest',
    rest = body ++ DQUOTE :: rest' /\ buf' = buf ++ body /\
    at_cursor s' (pre ++ body ++ [DQUOTE]) rest' /\
    forallb (fun c => negb (c =? DQUOTE)%N && negb (c =? NUL)%N) body = true.
Proof.
  induction f as [| f IH]; intros buf s pre rest buf' s' H Hc; [discriminate H |].
  cbn [string_loop] in H.
  destruct (N.eqb_spec (peek s) NUL) as [Hnul | Hnul]; [discriminate H |].
  destruct (at_cursor_peek_cases _ _ _ Hc) as [[-> Hn] | (c & r & -> & Hpk & Hc')];
    [contradiction |].
  rewrite Hpk in H, Hnul.
  destruct (N.eqb_spec c DQUOTE) as [E | Hq].
  - injection H as <- <-. exists [], r. rewrite E in *. rewrite app_nil_r.
    cbn [app forallb]. auto.
  - destruct (IH _ _ _ _ _ _ H Hc') as (body & rest' & -> & -> & Hc2 & Hb).
    exists (c :: body), rest'. rewrite <- !app_assoc in *. cbn [app forallb] in *.
    rewrite Hb.
    apply N.eqb_neq in Hq, Hnul. rewrite Hq, Hnul. auto.
Qed.

(** One pull, case by case on the character at which the skip phase
    ends. *)
Lemma next_token_cases s tok s' :
  next_token s = Ok (tok, s') ->
  exists s0,
    skip_whitespace_and_comments (S (remaining s)) s = Ok s0 /\
    Token.line tok = line s0 /\ Token.column tok = column s0 /\
    ((peek s0 = NUL /\ Token.type tok = EOF /\
      Token.lexeme tok = str "<EOF>" /\ s' = s0) \/
     (peek s0 <> NUL /\ punctuation (peek s0) = Some (Token.type tok) /\
      Token.lexeme tok = [peek s0] /\ s' = consume s0) \/
     (peek s0 <> NUL /\ punctuation (peek s0) = None /\
      isdigit (peek s0) = true /\ Token.type tok = INT /\
      exists f, number_loop f [] s0 = Ok (Token.lexeme tok, s')) \/
     (peek s0 = DQUOTE /\ Token.type tok = STRING /\
      exists f, string_loop f (line s0) (column s0) [] (consume s0)
                = Ok (Token.lexeme tok, s')) \/
     (peek s0 <> NUL /\ is_ident_start (peek s0) = true /\
      Token.type tok = keyword_type (Token.lexeme tok) /\
      exists f, ident_loop f [peek s0] (consume s0) = Ok (Token.lexeme tok, s'))).
Proof.
  unfold next_token, next_token_fuel. intros H.
  apply bind_Ok in H. destruct H as (s0 & Hs0 & H). cbv zeta in H.
  exists s0. split; [exact Hs0 |].
  destruct (N.eqb_spec (peek s0) NUL) as [Hnul | Hnul].
  { injection H as <- <-. cbn. auto 10. }
  destruct (punctuation (peek s0)) as [ty |] eqn:Hp.
  { injection H as <- <-. cbn. auto 10. }
  destruct (isdigit (peek s0)) eqn:Hd.
  { unfold number_token in H. apply bind_Ok in H.
    destruct H as ([w s1] & Hl & H). injection H as <- <-. cbn.
    split; [reflexivity |]. split; [reflexivity |].
    right. right. left. eauto 10. }
  destruct (N.eqb_spec (peek s0) DQUOTE) as [Hq | Hq].
  { unfold string_token in H. apply bind_Ok in H.
    destruct H as ([w s1] & Hl & H). injection H as <- <-. cbn.
    split; [reflexivity |]. split; [reflexivity |].
    right. right. right. left. eauto 10. }
  destruct (is_ident_start (peek s0)) eqn:Hi; [| discriminate H].
  unfold ident_or_keyword in H. apply bind_Ok in H.
  destruct H as ([w s1] & Hl & H). injection H as <- <-. cbn.
  split; [reflexivity |]. split; [reflexivity |].
  right. right. right. right. eauto 10.
Qed.

Lemma punctuation_token_ok c ty l k :
  punctuation c = Some ty ->
  token_ok (Token.mk ty [c] l k) = true /\
  source_of (Token.mk ty [c] l k) = [c] /\
  forall d, stops_at (Token.mk ty [c] l k) d = true.
Proof.
  intros Hp. unfold token_ok, source_of, stops_at.
  cbn [Token.type Token.lexeme]. rewrite Hp.
  unfold punctuation in Hp.
  repeat match type of Hp with
         | (if ?b then _ else _) = _ => destruct b
         end; inversion Hp; subst; repeat split; reflexivity.
Qed.

Lemma keyword_type_cases w :
  In (keyword_type w)
     [IF_; DO; DEF; DEFN; LET; PRINT; STRFN; LISTFN; NTH; HEAD; TAIL; BOOL; IDENT].
Proof.
  unfold keyword_type.
  repeat match goal with
         | |- context [if ?b then _ else _] => destruct b
         end; cbn; auto 20.
Qed.

Lemma next_token_source s s0 tok s' pre rest :
  next_token s = Ok (tok, s') ->
  skip_whitespace_and_comments (S (remaining s)) s = Ok s0 ->
  at_cursor s0 pre rest ->
  exists rest',
    rest = source_of tok ++ rest' /\
    at_cursor s' (pre ++ source_of tok) rest' /\
    (Token.type tok <> EOF -> source_of tok <> []).
Proof.
  intros H Hs Hc.
  destruct (next_token_cases _ _ _ H) as (s1 & Hs1 & _ & _ & Hcases).
  rewrite Hs in Hs1. injection Hs1 as <-.
  destruct tok as [ty w l k]. cbn [Token.type Token.lexeme] in Hcases.
  destruct Hcases as
    [(Hnul & -> & -> & ->)
    | [(Hnn & Hp & -> & ->)
      | [(Hnn & Hp & Hd & -> & f & Hl)
        | [(Hq & -> & f & Hl)
          | (Hnn & Hi & Hty & f & Hl)]]]].
  - exists rest. unfold source_of. cbn. rewrite app_nil_r. auto.
  - destruct (at_cursor_peek_cases _ _ _ Hc) as [[-> Hn] | (c & r & -> & Hpk & Hc')];
      [contradiction |].
    rewrite Hpk in *.
    destruct (punctuation_token_ok _ _ l k Hp) as (_ & Hsrc & _).
    unfold source_of in *. cbn [Token.type Token.lexeme] in *. rewrite Hsrc.
    exists r. split; [reflexivity |]. split; [exact Hc' |]. intros _; discriminate.
  - destruct (number_loop_read _ _ _ _ _ _ _ Hl Hc) as (ds & rest' & -> & -> & Hc2 & Hds & _).
    unfold source_of. cbn [Token.type Token.lexeme app].
    exists rest'. split; [reflexivity |]. split; [exact Hc2 |]. intros _ ->.
    cbn [app] in Hc. destruct (at_cursor_peek_cases _ _ _ Hc) as [[_ Hn] | (c & r & _ & Hpk & Hc')].
    + contradiction.
    + destruct f as [| f]; [discriminate Hl |]. cbn [number_loop] in Hl.
      rewrite Hd in Hl.
      destruct (number_loop_read _ _ _ _ _ _ _ Hl Hc') as (ds & r' & _ & E & _).
      destruct ds; discriminate E.
  - destruct (at_cursor_peek_cases _ _ _ Hc) as [[-> Hn] | (c & r & -> & Hpk & Hc')].
    { rewrite Hn in Hq. discriminate Hq. }
    rewrite Hpk in Hq. subst c.
    destruct (string_loop_read _ _ _ _ _ _ _ _ _ Hl Hc') as (body & rest' & -> & -> & Hc2 & _).
    unfold source_of. cbn [Token.type Token.lexeme app].
    exists rest'. rewrite <- app_assoc in Hc2. cbn [app] in Hc2.
    rewrite <- app_assoc. cbn [app].
    split; [reflexivity |]. split; [exact Hc2 |]. intros _; discriminate.
  - destruct (at_cursor_peek_cases _ _ _ Hc) as [[-> Hn] | (c & r & -> & Hpk & Hc')];
      [contradiction |].
    rewrite Hpk in *.
    destruct (ident_loop_read _ _ _ _ _ _ _ Hl Hc') as (w' & rest' & -> & -> & Hc2 & _).
    assert (Hsrc : source_of (Token.mk ty ([c] ++ w') l k) = c :: w').
    { unfold source_of. cbn [Token.type Token.lexeme app].
      pose proof (keyword_type_cases (c :: w')) as Hin. cbn [app] in Hty.
      rewrite <- Hty in Hin. cbn in Hin.
      repeat (destruct Hin as [<- | Hin]; [reflexivity |]). contradiction. }
    rewrite Hsrc. exists rest'. rewrite <- app_assoc in Hc2. cbn [app] in *.
    split; [reflexivity |]. split; [exact Hc2 |]. intros _; discriminate.
Qed.

(** X1: the lexeme of a token is the source text it was read from.  When
    the skip phase ends with [rest] ahead, [rest] starts with the token's
    source text (the lexeme; for a string the lexeme between its quotes;
    nothing for [EOF]), the lexer is left right behind it, and the line
    and column of the token are those of the first character of that
    source text. *)
Theorem lexeme_is_source_text s s0 tok s' pre rest :
  next_token s = Ok (tok, s') ->
  skip_whitespace_and_comments (S (remaining s)) s = Ok s0 ->
  at_cursor s0 pre rest ->
  (exists rest',
      rest = source_of tok ++ rest' /\
      at_cursor s' (pre ++ source_of tok) rest' /\
      (Token.type tok <> EOF -> source_of tok <> [])) /\
  Token.line tok = line s0 /\ Token.column tok = column s0.
Proof.
  intros H Hs Hc. split.
  - eapply next_token_source; eassumption.
  - destruct (next_token_cases _ _ _ H) as (s1 & Hs1 & Hl & Hk & _).
    rewrite Hs in Hs1. injection Hs1 as <-. auto.
Qed.

Lemma peek_cursor s :
  peek s <> NUL ->
  at_cursor s (firstn (pos s) (text s)) (skipn (pos s) (text s)).
Proof.
  intros H. apply at_cursor_here. apply peek_in_range in H. lia.
Qed.

(** X2: every token that [next_token] returns is well formed for its
    kind, and ends where the next character cannot extend it.  An [INT]
    lexeme is a non-empty run of digits followed by a non-digit; a
    [STRING] lexeme holds no double quote; a one-character token has the
    kind of its character; an identifier or keyword lexeme is an
    identifier start followed by identifier parts, has the kind that the
    keyword table gives its lexeme and is followed by a character that is
    no identifier part; the [EOF] lexeme is [<EOF>]. *)
Theorem token_well_formed s tok s' :
  next_token s = Ok (tok, s') ->
  token_ok tok = true /\ stops_at tok (peek s') = true.
Proof.
  intros H.
  destruct (next_token_cases _ _ _ H) as (s0 & Hs0 & _ & _ & Hcases).
  destruct tok as [ty w l k]. cbn [Token.type Token.lexeme] in Hcases.
  destruct Hcases as
    [(Hnul & -> & -> & ->)
    | [(Hnn & Hp & -> & ->)
      | [(Hnn & Hp & Hd & -> & f & Hl)
        | [(Hq & -> & f & Hl)
          | (Hnn & Hi & Hty & f & Hl)]]]].
  - split; reflexivity.
  - destruct (punctuation_token_ok _ _ l k Hp) as (Hok & _ & Hstop). auto.
  - pose proof (peek_cursor _ Hnn) as Hc.
    destruct (number_loop_read _ _ _ _ _ _ _ Hl Hc) as (ds & rest' & E & -> & Hc2 & Hds & Hend).
    unfold token_ok, stops_at. cbn [Token.type Token.lexeme app].
    rewrite Hds, Hend. split; [| reflexivity].
    destruct ds as [| d ds]; [| reflexivity].
    exfalso. cbn [app] in E. rewrite app_nil_r in Hc2.
    assert (Hs' : peek s' = peek s0).
    { destruct (at_cursor_peek_cases _ _ _ Hc) as [[_ Hn] | (c & r & E' & Hpk & _)];
        [contradiction |].
      rewrite E' in E. subst rest'. rewrite Hpk.
      eapply at_cursor_peek; eauto. }
    congruence.
  - assert (Hnn : peek s0 <> NUL) by (rewrite Hq; discriminate).
    pose proof (peek_cursor _ Hnn) as Hc.
    destruct (at_cursor_peek_cases _ _ _ Hc) as [[_ Hn] | (c & r & E & Hpk & Hc')];
      [contradiction |].
    destruct (string_loop_read _ _ _ _ _ _ _ _ _ Hl Hc') as (body & rest' & _ & -> & _ & Hb).
    unfold token_ok, stops_at. cbn [Token.type Token.lexeme app]. auto.
  - pose proof (peek_cursor _ Hnn) as Hc.
    destruct (at_cursor_peek_cases _ _ _ Hc) as [[_ Hn] | (c & r & E & Hpk & Hc')];
      [contradiction |].
    rewrite Hpk in *.
    destruct (ident_loop_read _ _ _ _ _ _ _ Hl Hc') as (w' & rest' & _ & -> & _ & Hw & Hend).
    cbn [app] in *.
    assert (Hid : ident_chars (c :: w') = true).
    { cbn [ident_chars]. now rewrite Hi, Hw. }
    pose proof (keyword_type_cases (c :: w')) as Hin. rewrite <- Hty in Hin.
    unfold token_ok, stops_at. cbn [Token.type Token.lexeme].
    rewrite <- Hty, Hid, Hend. cbn [In] in Hin.
    repeat (destruct Hin as [E' | Hin]; [rewrite <- E'; split; reflexivity |]).
    contradiction.
Qed.

Lemma isdigit_dispatch c :
  isdigit c = true -> (c =? NUL)%N = false /\ punctuation c = None.
Proof.
  intros H. unfold punctuation.
  repeat match goal with
         | |- context [(c =? ?k)%N] =>
             destruct (N.eqb_spec c k) as [-> | _]; [vm_compute in H; discriminate H |]
         end.
  auto.
Qed.

Lemma number_loop_run ds :
  forallb isdigit ds = true ->
  forall f buf s pre rest,
    at_cursor s pre (ds ++ rest) ->
    match rest with [] => true | c :: _ => negb (isdigit c) end = true ->
    (remaining s < f)%nat ->
    exists s', number_loop f buf s = Ok (buf ++ ds, s') /\
               at_cursor s' (pre ++ ds) rest.
Proof.
  induction ds as [| x ds IH]; intros Hds f buf s pre rest Hc Hend Hf;
    (destruct f as [| f]; [lia |]); cbn [number_loop]; cbn [app] in Hc.
  - exists s. rewrite !app_nil_r. split; [| assumption].
    destruct rest as [| c rest].
    + now rewrite (at_cursor_peek_nil _ _ Hc).
    + rewrite (at_cursor_peek _ _ _ _ Hc).
      apply negb_true_iff in Hend. now rewrite Hend.
  - cbn [forallb] in Hds. apply andb_prop in Hds. destruct Hds as [Hx Hds].
    rewrite (at_cursor_peek _ _ _ _ Hc), Hx.
    destruct (at_cursor_consume _ _ _ _ Hc) as [Hc' _].
    destruct (IH Hds f (buf ++ [x]) _ _ _ Hc' Hend) as (s' & Hs' & Hc2).
    { rewrite (at_cursor_remaining _ _ _ Hc').
      rewrite (at_cursor_remaining _ _ _ Hc) in Hf. cbn in Hf. lia. }
    exists s'. rewrite <- !app_assoc in *. auto.
Qed.

(** X3: in front of a non-empty run of digits that is followed by the end
    of the input or by a non-digit, [next_token] returns the [INT] token
    whose lexeme is exactly that run, positioned at its first digit, and
    leaves the lexer at the first character after the run. *)
Theorem integer_literal s s0 pre d ds rest :
  skip_whitespace_and_comments (S (remaining s)) s = Ok s0 ->
  at_cursor s0 pre ((d :: ds) ++ rest) ->
  forallb isdigit (d :: ds) = true ->
  match rest with [] => true | c :: _ => negb (isdigit c) end = true ->
  exists s',
    next_token s = Ok (Token.mk INT (d :: ds) (line s0) (column s0), s') /\
    at_cursor s' (pre ++ d :: ds) rest.
Proof.
  intros Hs Hc Hds Hend.
  destruct (next_token_from_start s s0 Hs) as [_ ->].
  destruct (skip_fixed (S (remaining s)) s s0 (Nat.lt_succ_diag_r _) Hs) as [_ Hfix].
  pose proof Hds as Hd. cbn [forallb] in Hd. apply andb_prop in Hd.
  destruct Hd as [Hd _].
  cbn [app] in Hc. pose proof (at_cursor_peek _ _ _ _ Hc) as Hpk.
  destruct (isdigit_dispatch d Hd) as (Hnul & Hpunct).
  destruct (number_loop_run (d :: ds) Hds (S (remaining s0)) [] _ _ _ Hc Hend)
    as (s' & Hs' & Hc2); [lia |].
  exists s'. split; [| exact Hc2].
  unfold next_token, next_token_fuel. rewrite Hfix. cbn [bind]. cbv zeta.
  rewrite Hpk, Hnul, Hpunct, Hd. unfold number_token. rewrite Hs'. reflexivity.
Qed.

Lemma string_loop_run body :
  forallb (fun c => negb (c =? DQUOTE)%N && negb (c =? NUL)%N) body = true ->
  forall f l k buf s pre rest,
    at_cursor s pre (body ++ DQUOTE :: rest) ->
    (remaining s < f)%nat ->
    exists s', string_loop f l k buf s = Ok (buf ++ body, s') /\
               at_cursor s' (pre ++ body ++ [DQUOTE]) rest.
Proof.
  induction body as [| x body IH]; intros Hb f l k buf s pre rest Hc Hf;
    (destruct f as [| f]; [lia |]); cbn [string_loop]; cbn [app] in Hc;
    rewrite (at_cursor_peek _ _ _ _ Hc);
    destruct (at_cursor_consume _ _ _ _ Hc) as [Hc' _].
  - exists (consume s). rewrite app_nil_r. cbn. auto.
  - cbn [forallb] in Hb. apply andb_prop in Hb. destruct Hb as [Hx Hb].
    apply andb_prop in Hx. destruct Hx as [Hq Hn].
    apply negb_true_iff in Hq, Hn. rewrite Hq, Hn.
    destruct (IH Hb f l k (buf ++ [x]) _ _ _ Hc') as (s' & Hs' & Hc2).
    { rewrite (at_cursor_remaining _ _ _ Hc').
      rewrite (at_cursor_remaining _ _ _ Hc) in Hf. cbn in Hf. lia. }
    exists s'. rewrite <- !app_assoc in *. auto.
Qed.


(** X5: [next_token] raises the unexpected-character error exactly when
    the skip phase ends at a character that is not [NUL], not one of the
    nine one-character tokens, not a digit, not a double quote and not an
    identifier start; the error names that character and its line and
    column.  A semicolon that no second semicolon follows is such a
    character. *)
Theorem unexpected_character s c l k :
  (next_token s = Raise (ELexer (UnexpectedChar c l k)) <->
   exists s0,
     skip_whitespace_and_comments (S (remaining s)) s = Ok s0 /\
     peek s0 = c /\ line s0 = l /\ column s0 = k /\
     c <> NUL /\ punctuation c = None /\ isdigit c = false /\
     c <> DQUOTE /\ is_ident_start c = false) /\
  (forall s0 pre rest,
     skip_whitespace_and_comments (S (remaining s)) s = Ok s0 ->
     at_cursor s0 pre (SEMI :: rest) ->
     next_token s = Raise (ELexer (UnexpectedChar SEMI (line s0) (column s0)))).
Proof.
  assert (Hfwd : forall s0,
             skip_whitespace_and_comments (S (remaining s)) s = Ok s0 ->
             peek s0 <> NUL -> punctuation (peek s0) = None ->
             isdigit (peek s0) = false -> peek s0 <> DQUOTE ->
             is_ident_start (peek s0) = false ->
             next_token s =
             Raise (ELexer (UnexpectedChar (peek s0) (line s0) (column s0)))).
  { intros s0 Hs Hn Hp Hd Hq Hi.
    unfold next_token, next_token_fuel. rewrite Hs. cbn [bind]. cbv zeta.
    apply N.eqb_neq in Hn, Hq. now rewrite Hn, Hp, Hd, Hq, Hi. }
  split; [split |].
  - intros H. unfold next_token, next_token_fuel in H.
    destruct (skip_whitespace_and_comments (S (remaining s)) s) as [s0 | e |] eqn:Hs;
      cbn [bind] in H; try discriminate H.
    { cbv zeta in H. exists s0. split; [reflexivity |].
      destruct (N.eqb_spec (peek s0) NUL) as [Hn | Hn]; [discriminate H |].
      destruct (punctuation (peek s0)) eqn:Hp; [discriminate H |].
      destruct (isdigit (peek s0)) eqn:Hd.
      { unfold number_token in H.
        destruct (number_loop _ _ _) as [[? ?] | e |] eqn:E; cbn [bind] in H;
          try discriminate H.
        exfalso. clear H. revert E.
        generalize (S (remaining s)) (@nil char) s0. clear.
        intros f. induction f as [| f IH]; intros buf s0; cbn [number_loop];
          [discriminate |].
        destruct (isdigit (peek s0)); [apply IH | discriminate]. }
      destruct (N.eqb_spec (peek s0) DQUOTE) as [Hq | Hq].
      { unfold string_token in H.
        destruct (string_loop _ _ _ _ _) as [[? ?] | e |] eqn:E; cbn [bind] in H;
          try discriminate H.
        exfalso. injection H as ->. revert E.
        generalize (S (remaining s)) (@nil char) (consume s0)
                   (line s0) (column s0). clear.
        intros f. induction f as [| f IH]; intros buf s1 l1 k1;
          cbn [string_loop]; [discriminate |].
        destruct (peek s1 =? NUL)%N; [discriminate |].
        destruct (peek s1 =? DQUOTE)%N; [discriminate | apply IH]. }
      destruct (is_ident_start (peek s0)) eqn:Hi.
      { unfold ident_or_keyword in H.
        destruct (ident_loop _ _ _) as [[? ?] | e |] eqn:E; cbn [bind] in H;
          try discriminate H.
        exfalso. clear H. revert E.
        generalize (S (remaining s)) [peek s0] (consume s0). clear.
        intros f. induction f as [| f IH]; intros buf s1; cbn [ident_loop];
          [discriminate |].
        destruct (is_ident_part (peek s1)); [apply IH | discriminate]. }
      injection H as <- <- <-. auto 10. }
    exfalso.
    destruct (skip_whitespace_and_comments_ok (S (remaining s)) s
                (Nat.lt_succ_diag_r _)) as (s1 & Hs1 & _).
    congruence.
  - intros (s0 & Hs & <- & <- & <- & Hn & Hp & Hd & Hq & Hi).
    now apply Hfwd.
  - intros s0 pre rest Hs Hc.
    pose proof (at_cursor_peek _ _ _ _ Hc) as Hpk.
    rewrite <- Hpk. apply Hfwd; [exact Hs | ..]; rewrite ?Hpk;
      reflexivity || discriminate.
Qed.

(** ** Invariants of the lexer state *)

Section LexerInvariant.
(** Whatever [consume] keeps, every loop of the lexer keeps. *)
Variable P : Lexer -> Prop.
Hypothesis P_consume : forall s, P s -> P (consume s).

Lemma skip_comment_keeps f : forall s s',
  P s -> skip_comment f s = Ok s' -> P s'.
Proof.
  induction f as [| f IH]; intros s s' HP H; [discriminate H |].
  cbn [skip_comment] in H.
  destruct ((peek s =? NL)%N || (peek s =? NUL)%N).
  - now injection H as <-.
  - eapply IH; [| exact H]. auto.
Qed.

Lemma skip_whitespace_and_comments_keeps f : forall s s',
  P s -> skip_whitespace_and_comments f s = Ok s' -> P s'.
Proof.
  induction f as [| f IH]; intros s s' HP H; [discriminate H |].
  cbn [skip_whitespace_and_comments] in H.
  destruct (is_space (peek s)).
  { eapply IH; [| exact H]. auto. }
  destruct ((peek s =? SEMI)%N && (peek_next s =? SEMI)%N).
  - apply bind_Ok in H. destruct H as (s1 & H1 & H).
    eapply IH; [| exact H].
    eapply skip_comment_keeps; [| exact H1]. auto.
  - now injection H as <-.
Qed.

Lemma number_loop_keeps f : forall buf s buf' s',
  P s -> number_loop f buf s = Ok (buf', s') -> P s'.
Proof.
  induction f as [| f IH]; intros buf s buf' s' HP H; [discriminate H |].
  cbn [number_loop] in H. destruct (isdigit (peek s)).
  - eapply IH; [| exact H]. auto.
  - now injection H as _ <-.
Qed.

Lemma ident_loop_keeps f : forall buf s buf' s',
  P s -> ident_loop f buf s = Ok (buf', s') -> P s'.
Proof.
  induction f as [| f IH]; intros buf s buf' s' HP H; [discriminate H |].
  cbn [ident_loop] in H. destruct (is_ident_part (peek s)).
  - eapply IH; [| exact H]. auto.
  - now injection H as _ <-.
Qed.

Lemma string_loop_keeps f l k : forall buf s buf' s',
  P s -> string_loop f l k buf s = Ok (buf', s') -> P s'.
Proof.
  induction f as [| f IH]; intros buf s buf' s' HP H; [discriminate H |].
  cbn [string_loop] in H.
  destruct (peek s =? NUL)%N; [discriminate H |].
  destruct (peek s =? DQUOTE)%N.
  - injection H as _ <-. auto.
  - eapply IH; [| exact H]. auto.
Qed.

Lemma next_token_keeps s tok s' :
  P s -> next_token s = Ok (tok, s') ->
  P s' /\
  exists s0, skip_whitespace_and_comments (S (remaining s)) s = Ok s0 /\ P s0 /\
             Token.line tok = line s0 /\ Token.column tok = column s0.
Proof.
  intros HP H.
  destruct (next_token_cases _ _ _ H) as (s0 & Hs0 & Hl & Hk & Hcases).
  pose proof (skip_whitespace_and_comments_keeps _ _ _ HP Hs0) as HP0.
  split; [| eauto].
  destruct Hcases as
    [(_ & _ & _ & ->)
    | [(_ & _ & _ & ->)
      | [(_ & _ & _ & _ & f & Hloop)
        | [(_ & _ & f & Hloop)
          | (_ & _ & _ & f & Hloop)]]]]; auto.
  - eapply number_loop_keeps; eauto.
  - eapply string_loop_keeps; [| exact Hloop]. auto.
  - eapply ident_loop_keeps; [| exact Hloop]. auto.
Qed.

End LexerInvariant.

Lemma at_cursor_unique s pre rest pre' rest' :
  at_cursor s pre rest -> at_cursor s pre' rest' -> pre' = pre /\ rest' = rest.
Proof.
  intros [Ht Hp] [Ht' Hp']. rewrite Ht in Ht'. rewrite Hp in Hp'.
  clear Ht Hp. revert pre' Ht' Hp'.
  induction pre as [| x pre IH]; intros [| y pre'] Ht Hp; cbn in *;
    try discriminate Hp; [auto |].
  injection Ht as -> Ht. injection Hp as Hp.
  destruct (IH _ Ht Hp) as [-> ->]. auto.
Qed.

Lemma line_col_snoc pre c : line_col (pre ++ [c]) = advance (line_col pre) c.
Proof. unfold line_col. now rewrite fold_left_app. Qed.

Lemma positioned_consume s : positioned s -> positioned (consume s).
Proof.
  intros (pre & rest & Hc & Hlc).
  destruct rest as [| c rest].
  - rewrite consume_past_end.
    + exists pre, []. auto.
    + destruct Hc as [Ht Hp]. rewrite Ht, Hp, length_app. cbn. lia.
  - destruct (at_cursor_consume _ _ _ _ Hc) as [Hc' Heq].
    exists (pre ++ [c]), rest. split; [exact Hc' |].
    rewrite line_col_snoc, <- Hlc, Heq. unfold advance.
    destruct (c =? NL)%N; reflexivity.
Qed.

Lemma line_col_fst pre :
  fst (line_col pre) = (1 + Z.of_nat (count_occ N.eq_dec pre NL))%Z.
Proof.
  induction pre as [| c pre IH] using rev_ind; [reflexivity |].
  rewrite line_col_snoc, count_occ_app. unfold advance. cbn [count_occ].
  destruct (N.eqb_spec c NL) as [-> | Hne]; cbn [fst].
  - destruct (N.eq_dec NL NL); [| contradiction]. rewrite IH.
    unfold char in *. lia.
  - destruct (N.eq_dec c NL); [contradiction |]. rewrite IH.
    unfold char in *. lia.
Qed.

Lemma line_col_snd_run lc tail :
  ~ In NL tail ->
  snd (fold_left advance tail lc) = (snd lc + Z.of_nat (length tail))%Z.
Proof.
  revert lc. induction tail as [| c tail IH]; intros lc Hn; cbn [fold_left length].
  - lia.
  - rewrite IH by (intros H; apply Hn; now right).
    unfold advance. destruct (N.eqb_spec c NL) as [-> | _].
    + exfalso. apply Hn. now left.
    + cbn [snd]. lia.
Qed.

Lemma line_col_lower pre : (1 <= fst (line_col pre) /\ 1 <= snd (line_col pre))%Z.
Proof.
  induction pre as [| c pre IH] using rev_ind; [cbn; lia |].
  rewrite line_col_snoc. unfold advance.
  destruct (c =? NL)%N; cbn [fst snd]; lia.
Qed.

(** X6: the line and column of the lexer are a function of the text
    before the cursor.  A fresh lexer has this property, [consume] and
    [next_token] keep it, and the position of every token is the one
    reached from 1:1 by reading the text before the token: the line is one
    more than the number of newlines in it, the column one more than the
    number of characters after its last newline.  Lines and columns are
    therefore 1-based. *)
Theorem position_invariant :
  (forall code, positioned (Lexer_init code)) /\
  (forall s, positioned s -> positioned (consume s)) /\
  (forall s tok s',
     positioned s -> next_token s = Ok (tok, s') ->
     positioned s' /\
     (1 <= Token.line tok)%Z /\ (1 <= Token.column tok)%Z /\
     exists s0 pre rest,
       skip_whitespace_and_comments (S (remaining s)) s = Ok s0 /\
       at_cursor s0 pre rest /\
       (Token.line tok, Token.column tok) = line_col pre) /\
  (forall pre,
     fst (line_col pre) = (1 + Z.of_nat (count_occ N.eq_dec pre NL))%Z) /\
  (forall tail, ~ In NL tail ->
     snd (line_col tail) = (1 + Z.of_nat (length tail))%Z) /\
  (forall pre tail, ~ In NL tail ->
     snd (line_col (pre ++ NL :: tail)) = (1 + Z.of_nat (length tail))%Z).
Proof.
  split; [| split; [| split; [| split; [| split]]]].
  - intros code. exists [], code. split; [apply at_cursor_init | reflexivity].
  - apply positioned_consume.
  - intros s tok s' HP H.
    destruct (next_token_keeps positioned positioned_consume _ _ _ HP H)
      as (HP' & s0 & Hs0 & (pre & rest & Hc & Hlc) & Hl & Hk).
    split; [exact HP' |].
    pose proof (line_col_lower pre) as Hlow.
    rewrite Hl, Hk. rewrite <- Hlc in Hlow. cbn [fst snd] in Hlow.
    split; [tauto |]. split; [tauto |].
    exists s0, pre, rest. auto.
  - apply line_col_fst.
  - intros tail Hn. unfold line_col. rewrite line_col_snd_run by assumption.
    cbn. lia.
  - intros pre tail Hn. unfold line_col. rewrite fold_left_app.
    cbn [fold_left]. rewrite line_col_snd_run by assumption.
    unfold advance. change (NL =? NL)%N with true. cbn. lia.
Qed.

(** ** [tokenize] as iterated [next_token] *)

Lemma tokenize_loop_acc f : forall acc s,
  tokenize_loop f acc s =
  ('(toks, s') <- tokenize_loop f [] s ;; Ok (acc ++ toks, s')).
Proof.
  induction f as [| f IH]; intros acc s; [reflexivity |].
  cbn [tokenize_loop].
  destruct (next_token s) as [[tok s1] | e |]; cbn [bind]; try reflexivity.
  destruct (TokenType_eqb (Token.type tok) EOF); [reflexivity |].
  rewrite (IH (acc ++ [tok])), (IH ([] ++ [tok])).
  destruct (tokenize_loop f [] s1) as [[toks s2] | e |]; cbn [bind];
    try reflexivity.
  now rewrite <- app_assoc.
Qed.

Lemma tokenize_defined s : tokenize s <> OutOfFuel.
Proof.
  unfold tokenize.
  destruct (tokenize_loop_ok (S (remaining s)) [] s (Nat.lt_succ_diag_r _))
    as [(pre & eof & s' & H & _) | (e & H)]; rewrite H; discriminate.
Qed.

Lemma tokenize_step s :
  tokenize s =
  ('(tok, s1) <- next_token s ;;
   if is_EOF tok then Ok ([tok], s1)
   else '(rest, s2) <- tokenize s1 ;; Ok (tok :: rest, s2)).
Proof.
  unfold tokenize at 1. cbn [tokenize_loop].
  destruct (next_token_spec s) as [(tok & s1 & H & Hpull) | (e & H)];
    rewrite H; cbn [bind]; [| reflexivity].
  unfold is_EOF.
  destruct (TokenType_eqb_spec (Token.type tok) EOF) as [E | E]; [reflexivity |].
  rewrite tokenize_loop_acc.
  assert (Hlt : (remaining s1 < remaining s)%nat).
  { destruct Hpull as (s0 & _ & (_ & _ & H0) & _ & _ & _ & [(Heof & _) | (_ & _ & Hlt)]);
      [contradiction | lia]. }
  rewrite (tokenize_loop_mono (S (remaining s1)) (remaining s) [] s1 _ eq_refl)
    by (apply tokenize_defined || lia).
  reflexivity.
Qed.

(** X7: [tokenize] is [next_token] iterated: it pulls one token and, if
    that is not [EOF], puts it in front of the tokens of the state the
    pull left; an error of either part is the error of the whole.  The
    loop with tokens already collected gives those tokens followed by the
    ones [tokenize] gives. *)
Theorem tokenize_unroll s :
  tokenize s =
  ('(tok, s1) <- next_token s ;;
   if is_EOF tok then Ok ([tok], s1)
   else '(rest, s2) <- tokenize s1 ;; Ok (tok :: rest, s2)) /\
  (forall fuel tokens,
     (remaining s < fuel)%nat ->
     tokenize_loop fuel tokens s =
     ('(toks, s') <- tokenize s ;; Ok (tokens ++ toks, s'))).
Proof.
  split; [apply tokenize_step |].
  intros fuel tokens Hf. rewrite tokenize_loop_acc.
  rewrite (tokenize_loop_mono (S (remaining s)) fuel [] s (tokenize s));
    [reflexivity | reflexivity | apply tokenize_defined | lia].
Qed.

Lemma tokenize_loop_bound f : forall acc s toks s',
  tokenize_loop f acc s = Ok (toks, s') ->
  exists new,
    toks = acc ++ new /\ (length new <= S (remaining s))%nat /\
    follows s s' /\ peek s' = NUL.
Proof.
  induction f as [| f IH]; intros acc s toks s' H; [discriminate H |].
  cbn [tokenize_loop] in H.
  destruct (next_token_spec s) as [(tok & s1 & Hnt & Hpull) | (e & Hnt)];
    rewrite Hnt in H; cbn [bind] in H; [| discriminate H].
  destruct Hpull as (s0 & _ & Hf0 & Hf1 & _ & _ & [Heof | Hne]).
  - destruct Heof as (Hty & -> & Hnul & _). rewrite Hty in H. cbn in H.
    injection H as <- <-. exists [tok]. cbn [length]. repeat split; auto; try lia.
    all: apply Hf0.
  - destruct Hne as (Hty & _ & Hlt).
    apply TokenType_eqb_neq in Hty. rewrite Hty in H.
    destruct (IH _ _ _ _ H) as (new & -> & Hlen & Hfol & Hnul).
    exists (tok :: new). rewrite <- app_assoc. cbn [app length].
    pose proof (follows_trans _ _ _ Hf0 Hf1) as Hf01.
    split; [reflexivity |]. split; [destruct Hf0 as (_ & _ & ?); lia |].
    split; [eapply follows_trans; eauto | assumption].
Qed.

(** X8: a successful [tokenize] returns at most one token per character
    that was left, plus the [EOF] token; it leaves the text unchanged, the
    cursor no further back, and the lexer at a point where [peek] sees the
    end of the input. *)
Theorem tokenize_bound s toks s' :
  tokenize s = Ok (toks, s') ->
  (length toks <= S (remaining s))%nat /\
  text s' = text s /\ (pos s <= pos s')%nat /\ peek s' = NUL.
Proof.
  intros H. unfold tokenize in H.
  destruct (tokenize_loop_bound _ _ _ _ _ H) as (new & -> & Hlen & (Ht & Hp & _) & Hnul).
  cbn [app]. auto.
Qed.

(** ** Nothing but whitespace and comments is lost *)

Lemma at_cursor_peek_next_end s pre c :
  at_cursor s pre [c] -> peek_next s = NUL.
Proof.
  intros [Ht Hp]. unfold peek_next. rewrite Ht, Hp, length_app. cbn [length].
  destruct (Nat.leb_spec (length pre + 1) (length pre + 1)); [reflexivity | lia].
Qed.

Lemma skip_comment_read f : forall s s1 pre rest,
  skip_comment f s = Ok s1 ->
  at_cursor s pre rest ->
  exists body rest',
    rest = body ++ rest' /\ Forall (fun c => c <> NL) body /\
    at_cursor s1 (pre ++ body) rest' /\
    (peek s1 = NL \/ peek s1 = NUL).
Proof.
  induction f as [| f IH]; intros s s1 pre rest H Hc; [discriminate H |].
  cbn [skip_comment] in H.
  destruct (N.eqb_spec (peek s) NL) as [Hnl | Hnl].
  { injection H as <-. exists [], rest. rewrite app_nil_r. auto. }
  destruct (N.eqb_spec (peek s) NUL) as [Hnul | Hnul]; cbn [orb] in H.
  { injection H as <-. exists [], rest. rewrite app_nil_r. auto. }
  destruct (at_cursor_peek_cases _ _ _ Hc) as [[_ Hn] | (c & r & -> & Hpk & Hc')];
    [contradiction |].
  destruct (IH _ _ _ _ H Hc') as (body & rest' & -> & Hb & Hc1 & Hend).
  exists (c :: body), rest'. rewrite <- app_assoc in Hc1.
  rewrite Hpk in Hnl.
  split; [reflexivity |]. split; [now constructor |]. auto.
Qed.

Lemma skip_read f : forall s s0 pre rest,
  skip_whitespace_and_comments f s = Ok s0 ->
  at_cursor s pre rest -> ~ In NUL rest ->
  exists skipped rest',
    rest = skipped ++ rest' /\ blank skipped /\
    at_cursor s0 (pre ++ skipped) rest' /\ is_space (peek s0) = false.
Proof.
  induction f as [| f IH]; intros s s0 pre rest H Hc Hnn; [discriminate H |].
  cbn [skip_whitespace_and_comments] in H.
  destruct (is_space (peek s)) eqn:Hsp.
  { destruct (at_cursor_peek_cases _ _ _ Hc) as [[_ Hn] | (c & r & -> & Hpk & Hc')].
    { rewrite Hn in Hsp. discriminate Hsp. }
    destruct (IH _ _ _ _ H Hc') as (sk & rest' & -> & Hbl & Hc0 & Hns).
    { intros Hin. apply Hnn. now right. }
    exists (c :: sk), rest'. rewrite <- app_assoc in Hc0. rewrite Hpk in Hsp.
    cbn [app] in Hc0.
    split; [reflexivity |]. split; [now apply blank_space |].
    split; [exact Hc0 | exact Hns]. }
  destruct ((peek s =? SEMI)%N && (peek_next s =? SEMI)%N) eqn:Hsemi.
  2:{ injection H as <-. exists [], rest. rewrite app_nil_r.
      auto using blank_nil. }
  apply andb_prop in Hsemi. destruct Hsemi as [H1 H2].
  apply N.eqb_eq in H1, H2.
  destruct (at_cursor_peek_cases _ _ _ Hc) as [[_ Hn] | (c & r & -> & Hpk & Hc1)].
  { rewrite Hn in H1. discriminate H1. }
  rewrite Hpk in H1. subst c.
  destruct r as [| d r].
  { rewrite (at_cursor_peek_next_end _ _ _ Hc) in H2. discriminate H2. }
  rewrite (at_cursor_peek_next _ _ _ _ _ Hc) in H2. subst d.
  destruct (at_cursor_consume _ _ _ _ Hc1) as [Hc2 _].
  apply bind_Ok in H. destruct H as (s1 & Hcom & H).
  destruct (skip_comment_read _ _ _ _ _ Hcom Hc2) as (body & r3 & -> & Hbody & Hc3 & Hend).
  destruct (IH _ _ _ _ H Hc3) as (sk & rest' & E & Hbl & Hc0 & Hns).
  { intros Hin. apply Hnn. right. right. apply in_or_app. now right. }
  exists (SEMI :: SEMI :: body ++ sk), rest'.
  repeat rewrite <- app_assoc in Hc0. cbn [app] in Hc0.
  split; [cbn [app]; rewrite <- app_assoc, E; reflexivity |].
  split; [| split; [exact Hc0 | exact Hns]].
  apply blank_comment; [assumption | | assumption].
  destruct r3 as [| x r3].
  - left. destruct sk; [reflexivity | discriminate E].
  - right. pose proof (at_cursor_peek _ _ _ _ Hc3) as Hx.
    assert (x = NL).
    { destruct Hend as [Hend | Hend]; rewrite Hx in Hend; [assumption |].
      exfalso. apply Hnn. right. right. apply in_or_app. right. left. assumption. }
    clear Hend Hx. subst x. destruct sk as [| y sk].
    + exfalso. cbn [app] in E. subst rest'. rewrite app_nil_r in Hc0.
      rewrite (at_cursor_peek _ _ _ _ Hc0) in Hns. vm_compute in Hns.
      discriminate Hns.
    + injection E as <- _. eauto.
Qed.

Lemma tokenize_loop_interleaved f : forall acc s toks s' pre rest,
  tokenize_loop f acc s = Ok (toks, s') ->
  at_cursor s pre rest -> ~ In NUL rest ->
  exists new, toks = acc ++ new /\ interleaved new rest.
Proof.
  induction f as [| f IH]; intros acc s toks s' pre rest H Hc Hnn;
    [discriminate H |].
  cbn [tokenize_loop] in H.
  destruct (next_token_spec s) as [(tok & s1 & Hnt & Hpull) | (e & Hnt)];
    rewrite Hnt in H; cbn [bind] in H; [| discriminate H].
  destruct Hpull as (s0 & Hs0 & _ & _ & _ & _ & Hkind).
  destruct (skip_read _ _ _ _ _ Hs0 Hc Hnn) as (sk & rest0 & -> & Hbl & Hc0 & _).
  destruct (next_token_source _ _ _ _ _ _ Hnt Hs0 Hc0) as (rest1 & -> & Hc1 & _).
  destruct Hkind as [(Hty & _ & Hnul & _) | (Hty & _)].
  - rewrite Hty in H. cbn in H. injection H as <- <-.
    exists [tok]. split; [reflexivity |].
    assert (rest1 = []).
    { unfold source_of in Hc0. rewrite Hty in Hc0. cbn [app] in Hc0.
      destruct rest1 as [| x r]; [reflexivity |].
      rewrite (at_cursor_peek _ _ _ _ Hc0) in Hnul. subst x.
      exfalso. apply Hnn. apply in_or_app. right. apply in_or_app. right.
      now left. }
    subst rest1. constructor; [assumption | constructor].
  - apply TokenType_eqb_neq in Hty. rewrite Hty in H.
    destruct (IH _ _ _ _ _ _ H Hc1) as (new & -> & Hil).
    { intros Hin. apply Hnn. apply in_or_app. right. apply in_or_app. now right. }
    exists (tok :: new). rewrite <- app_assoc. split; [reflexivity |].
    now constructor.
Qed.

(** X15: tokenizing loses nothing but whitespace and comments.  When
    [tokenize] succeeds on a text without [NUL] character, the text is the
    source text of the returned tokens, in order, each preceded by a
    stretch of whitespace and comments (the last one, before [EOF], is
    the trailing stretch). *)
Theorem tokenize_round_trip code toks s' :
  tokenize (Lexer_init code) = Ok (toks, s') ->
  ~ In NUL code ->
  interleaved toks code.
Proof.
  intros H Hnn. unfold tokenize in H.
  destruct (tokenize_loop_interleaved _ _ _ _ _ _ _ H (at_cursor_init code) Hnn)
    as (new & -> & Hil).
  exact Hil.
Qed.

Lemma keyword_type_lexeme w kw ty :
  In (kw, ty) reserved_words -> ty <> BOOL ->
  keyword_type w = ty -> w = str kw.
Proof.
  intros Hin Hnb. unfold keyword_type.
  repeat match goal with
         | |- context [str_eqb w (str ?k)] =>
             let E := fresh "E" in
             destruct (str_eqb w (str k)) eqn:E;
             [apply str_eqb_eq in E | clear E]
         end; cbn [orb];
    intros <-; unfold reserved_words in Hin; cbn [In] in Hin;
    repeat (destruct Hin as [Hin | Hin];
            [injection Hin as <-; (assumption || discriminate || contradiction) |]);
    try contradiction.
Qed.

Lemma keyword_type_bool w :
  keyword_type w = BOOL -> w = str "true" \/ w = str "false".
Proof.
  unfold keyword_type.
  repeat match goal with
         | |- context [str_eqb w (str ?k)] =>
             let E := fresh "E" in
             destruct (str_eqb w (str k)) eqn:E;
             [apply str_eqb_eq in E | clear E]
         end; cbn [orb]; intros H; try discriminate H; auto.
Qed.

(** X16: the kind of a token fixes its lexeme where the lexer has a
    dedicated kind: a token that [next_token] returns with the kind of a
    reserved word has that word as lexeme, and a [BOOL] token has the
    lexeme [true] or [false]. *)
Theorem kind_fixes_lexeme s tok s' :
  next_token s = Ok (tok, s') ->
  (forall kw ty, In (kw, ty) reserved_words -> ty <> BOOL ->
                 Token.type tok = ty -> Token.lexeme tok = str kw) /\
  (Token.type tok = BOOL ->
   Token.lexeme tok = str "true" \/ Token.lexeme tok = str "false").
Proof.
  intros H.
  destruct (next_token_cases _ _ _ H) as (s0 & _ & _ & _ & Hcases).
  assert (Hkw : forall ty,
             In ty [IF_; DO; DEF; DEFN; LET; PRINT; STRFN; LISTFN; NTH; HEAD;
                    TAIL; BOOL] ->
             Token.type tok = ty ->
             keyword_type (Token.lexeme tok) = ty).
  { intros ty Hin Hty.
    destruct Hcases as
      [(_ & E & _)
      | [(_ & Hp & _)
        | [(_ & _ & _ & E & _)
          | [(_ & E & _)
            | (_ & _ & E & _)]]]];
      try (rewrite E in Hty; subst ty; cbn in Hin;
           repeat (destruct Hin as [Hin | Hin]; [discriminate Hin |]);
           contradiction).
    - exfalso. rewrite Hty in Hp. clear Hty. unfold punctuation in Hp.
      repeat match type of Hp with
             | (if ?b then _ else _) = _ => destruct b
             end; inversion Hp; subst ty; cbn in Hin;
        repeat (destruct Hin as [Hin | Hin]; [discriminate Hin |]);
        contradiction.
    - congruence. }
  split.
  - intros kw ty Hin Hnb Hty.
    apply (keyword_type_lexeme _ kw ty Hin Hnb). apply Hkw; [| exact Hty].
    unfold reserved_words in Hin. cbn [In] in Hin. cbn [In].
    repeat (destruct Hin as [Hin | Hin]; [injection Hin as _ <-; auto 20 |]).
    contradiction.
  - intros Hty. apply keyword_type_bool. apply Hkw; [cbn; auto 20 | exact Hty].
Qed.

End LexerMore.

(** * Further properties of the parser *)

Section ParserMore.
Context `{U : UnicodeDB}.


Lemma parse_loop_shape fuel n : forall exprs p tree p',
  parse_loop fuel n exprs p = Ok (tree, p') ->
  Token.type (lookahead p') = EOF /\
  exists more, tree = mkNode "Program" None (exprs ++ more) /\
               (more = [] -> p' = p).
Proof.
  induction n as [| n IH]; intros exprs p tree p' H; [discriminate H |].
  cbn [parse_loop] in H.
  destruct (TokenType_eqb_spec (Token.type (lookahead p)) EOF) as [E | E];
    cbn [negb] in H.
  - injection H as <- <-. split; [exact E |].
    exists []. rewrite app_nil_r. auto.
  - bind_inv H. destruct (IH _ _ _ _ H) as (Heof & more & -> & _).
    split; [exact Heof |]. exists (n0 :: more).
    rewrite <- app_assoc. split; [reflexivity | discriminate].
Qed.

(** X10: [parse] returns only at the end of the input.  Its tree is a
    [Program] node without value, the lookahead it leaves is the [EOF]
    token, and the program has no expressions exactly when the lookahead
    was [EOF] to begin with (the parser then has not moved). *)
Theorem parse_reads_all fuel p tree p' :
  parse fuel p = Ok (tree, p') ->
  Token.type (lookahead p') = EOF /\
  exists exprs,
    tree = mkNode "Program" None exprs /\
    (exprs = [] <-> Token.type (lookahead p) = EOF) /\
    (exprs = [] -> p' = p).
Proof.
  intros H. unfold parse in H.
  destruct (parse_loop_shape _ _ _ _ _ _ H) as (Heof & more & -> & Hsame).
  split; [exact Heof |]. exists more. cbn [app].
  split; [reflexivity |]. split; [| exact Hsame].
  split.
  - intros E. rewrite (Hsame E) in Heof. exact Heof.
  - intros E. destruct fuel as [| f]; [discriminate H |].
    cbn [parse_loop] in H. rewrite E in H. cbn in H. now injection H.
Qed.

(** X11: a program text made only of whitespace and line comments, the
    empty text included, parses to the [Program] node without children,
    on every budget. *)
Theorem parse_blank_program code fuel :
  blank code -> (1 <= fuel)%nat ->
  parse_text fuel code = Ok (mkNode "Program" None []).
Proof.
  intros Hb Hf. set (s := Lexer_init code).
  destruct (skip_blank code Hb (S (remaining s)) s [] (at_cursor_init code))
    as (s0 & Hs0 & Hnul); [lia |].
  unfold parse_text, Parser_init, next_token, next_token_fuel.
  fold s. rewrite Hs0. cbn [bind]. cbv zeta. rewrite Hnul. cbn [N.eqb NUL bind].
  destruct fuel as [| f]; [lia |]. reflexivity.
Qed.

(** ** Kinds and values of the nodes *)

Lemma is_param_kind_ok n : is_param n = true -> all_nodes kind_ok n = true.
Proof.
  destruct n as [k v cs]. unfold is_param, has_kind. cbn [kind value children].
  rewrite andb_true_iff. intros [Hk Hshape].
  apply String.eqb_eq in Hk. subst k.
  destruct v; [| discriminate]. destruct cs; [| discriminate]. reflexivity.
Qed.

Lemma parse_atom_kind_ok p n p' :
  parse_atom p = Ok (n, p') -> all_nodes kind_ok n = true.
Proof.
  unfold parse_atom.
  repeat match goal with
         | |- context [TokenType_eqb ?a ?b] => destruct (TokenType_eqb a b)
         end; intros H; try discriminate H;
    bind_inv H; injection H as <- <-; reflexivity.
Qed.

Section RulesKinds.
Variable parse_expr_rec : Parser -> result (Node * Parser).
Variable fuel : nat.
Hypothesis rec_kinds :
  forall p n p', parse_expr_rec p = Ok (n, p') -> all_nodes kind_ok n = true.

Lemma exprs_loop_kinds n : forall exprs p res p',
  forallb (all_nodes kind_ok) exprs = true ->
  exprs_loop parse_expr_rec n exprs p = Ok (res, p') ->
  forallb (all_nodes kind_ok) res = true.
Proof.
  induction n as [| n IH]; intros exprs p res p' Hacc H; [discriminate H |].
  cbn [exprs_loop] in H. destruct (negb _).
  - bind_inv H. eapply IH; [| exact H].
    apply forallb_snoc; [assumption | eauto].
  - now injection H as <- <-.
Qed.

Lemma bindings_loop_kinds n : forall bindings p res p',
  forallb (fun b => has_kind "LetBinding" b && all_nodes kind_ok b) bindings = true ->
  bindings_loop parse_expr_rec n bindings p = Ok (res, p') ->
  forallb (fun b => has_kind "LetBinding" b && all_nodes kind_ok b) res = true.
Proof.
  induction n as [| n IH]; intros bindings p res p' Hacc H; [discriminate H |].
  cbn [bindings_loop] in H.
  destruct (TokenType_eqb (Token.type (lookahead p)) IDENT).
  - bind_inv H. bind_inv H. eapply IH; [| exact H].
    apply forallb_snoc; [assumption |].
    cbn. now rewrite (rec_kinds _ _ _ E0).
  - now injection H as <- <-.
Qed.

Lemma forallb_and {A} (f g : A -> bool) l :
  forallb (fun x => f x && g x) l = true ->
  forallb f l = true /\ forallb g l = true.
Proof.
  induction l as [| x l IH]; cbn; [auto |].
  rewrite !andb_true_iff. tauto.
Qed.

Lemma parse_form_kinds p n p' :
  parse_form parse_expr_rec fuel p = Ok (n, p') -> all_nodes kind_ok n = true.
Proof.
  unfold parse_form.
  repeat match goal with
         | |- context [TokenType_eqb ?a ?b] => destruct (TokenType_eqb a b)
         end; intros H.
  - unfold parse_if_expr in H. do 3 bind_inv H.
    destruct (negb _).
    + bind_inv H. injection H as <- <-. cbn.
      now rewrite (rec_kinds _ _ _ E0), (rec_kinds _ _ _ E1), (rec_kinds _ _ _ E2).
    + injection H as <- <-. cbn.
      now rewrite (rec_kinds _ _ _ E0), (rec_kinds _ _ _ E1).
  - unfold parse_do_expr in H. bind_inv H.
    destruct (TokenType_eqb _ _); [discriminate H |].
    bind_inv H. injection H as <- <-. cbn.
    eapply exprs_loop_kinds; [| exact E0]. reflexivity.
  - unfold parse_def_expr in H. do 3 bind_inv H.
    injection H as <- <-. cbn. now rewrite (rec_kinds _ _ _ E1).
  - unfold parse_defn_expr in H. do 6 bind_inv H.
    injection H as <- <-.
    pose proof (params_loop_ok _ [] _ _ _ eq_refl E2) as Hparams.
    cbn. rewrite (rec_kinds _ _ _ E4), andb_true_r.
    rewrite forallb_forall in *. intros x Hx. apply is_param_kind_ok. auto.
  - unfold parse_let_expr in H. do 5 bind_inv H.
    injection H as <- <-.
    pose proof (bindings_loop_kinds _ [] _ _ _ eq_refl E1) as Hb.
    apply forallb_and in Hb. destruct Hb as [Hb1 Hb2].
    cbn. now rewrite Hb1, Hb2, (rec_kinds _ _ _ E3).
  - unfold parse_app_expr in H.
    destruct (negb _); [discriminate H |].
    do 2 bind_inv H. injection H as <- <-. cbn.
    eapply exprs_loop_kinds; [| exact E0]. reflexivity.
Qed.

Lemma parse_expr_rule_kinds p n p' :
  parse_expr_rule parse_expr_rec fuel p = Ok (n, p') ->
  all_nodes kind_ok n = true.
Proof.
  unfold parse_expr_rule.
  destruct (type_in _ _); [apply parse_atom_kind_ok |].
  destruct (TokenType_eqb _ _); [| discriminate].
  unfold parse_list_expr. intros H. do 3 bind_inv H.
  injection H as <- <-. cbn. now rewrite (parse_form_kinds _ _ _ E0).
Qed.

End RulesKinds.

Lemma parse_expr_kinds fuel : forall p n p',
  parse_expr fuel p = Ok (n, p') -> all_nodes kind_ok n = true.
Proof.
  induction fuel as [| f IH]; intros p n p' H; [discriminate H |].
  cbn [parse_expr] in H. eapply parse_expr_rule_kinds; eauto.
Qed.

Lemma parse_loop_kinds fuel n : forall exprs p tree p',
  forallb (all_nodes kind_ok) exprs = true ->
  parse_loop fuel n exprs p = Ok (tree, p') ->
  all_nodes kind_ok tree = true.
Proof.
  induction n as [| n IH]; intros exprs p tree p' Hacc H; [discriminate H |].
  cbn [parse_loop] in H. destruct (negb _).
  - bind_inv H. eapply IH; [| exact H].
    apply forallb_snoc; [assumption |]. eapply parse_expr_kinds; eauto.
  - injection H as <- <-. cbn. exact Hacc.
Qed.

(** X12: every node of a tree that [parse] returns has one of the sixteen
    kinds the parser builds and carries what that kind carries:
    [Program], [ListExpr], [IfExpr], [DoExpr] and [ParamList] have no
    value; literals, identifiers and parameters are leaves with a value;
    [DefExpr] and [LetBinding] have a name and one child; [DefnExpr] and
    [AppExpr] have a name; [LetExpr] has no value and two children, the
    first a [LetBindings] node without value whose children are all
    [LetBinding] nodes.  What [parse_expr] returns is a literal, an
    identifier or a [ListExpr]. *)
Theorem tree_kinds :
  (forall fuel p tree p',
     parse fuel p = Ok (tree, p') -> all_nodes kind_ok tree = true) /\
  (forall fuel p n p',
     parse_expr fuel p = Ok (n, p') ->
     kind_in ["IntLiteral"; "StringLiteral"; "BoolLiteral"; "Identifier";
              "ListExpr"]%string n = true).
Proof.
  split.
  - intros fuel p tree p'. apply parse_loop_kinds. reflexivity.
  - intros [| f] p n p' H; [discriminate H |].
    cbn [parse_expr] in H. unfold parse_expr_rule in H.
    destruct (type_in _ _).
    + unfold parse_atom in H.
      repeat match type of H with
             | context [TokenType_eqb ?a ?b] => destruct (TokenType_eqb a b)
             end; try discriminate H;
        bind_inv H; injection H as <- <-; reflexivity.
    + destruct (TokenType_eqb _ _); [| discriminate H].
      unfold parse_list_expr in H. do 3 bind_inv H.
      injection H as <- <-. reflexivity.
Qed.

(** X13: the two places where the parser finds no rule to apply.  On a
    lookahead that is neither a literal, an identifier nor an opening
    parenthesis, [parse_expr] raises "Ausdruck erwartet" with that token.
    After an opening parenthesis, a token that is a parenthesis, a
    literal or [EOF] makes [parse_list_expr] raise "Operator oder
    Funktionsname erwartet" with that token: the empty list and a list
    headed by a list or a literal are syntax errors. *)
Theorem no_rule_errors :
  (forall fuel p,
     type_in (Token.type (lookahead p)) [INT; STRING; BOOL; IDENT; LPAREN] = false ->
     parse_expr (S fuel) p =
     Raise (EParser (mkParserError "Ausdruck erwartet" (lookahead p)))) /\
  (forall rec fuel p t p1,
     Parser_match LPAREN p = Ok (t, p1) ->
     type_in (Token.type (lookahead p1))
       [LPAREN; RPAREN; BOOL; INT; STRING; EOF] = true ->
     parse_list_expr rec fuel p =
     Raise (EParser (mkParserError "Operator oder Funktionsname erwartet"
                       (lookahead p1)))).
Proof.
  split.
  - intros fuel p H. cbn [parse_expr]. unfold parse_expr_rule.
    destruct (Token.type (lookahead p)); try discriminate H; reflexivity.
  - intros rec fuel p t p1 Hm H. unfold parse_list_expr. rewrite Hm. cbn [bind].
    unfold parse_form, parse_app_expr.
    destruct (Token.type (lookahead p1)); try discriminate H; reflexivity.
Qed.

Lemma parse_expr_progress f p n p' :
  parse_expr f p = Ok (n, p') -> (tokens_left p' < tokens_left p)%nat.
Proof.
  intros H. set (F := Nat.max f (S (tokens_left p))).
  assert (HF : parse_expr F p = Ok (n, p')).
  { rewrite <- H. apply refines_defined; [| rewrite H; discriminate].
    apply parse_expr_refines. subst F. lia. }
  destruct (parse_expr_total F p) as [_ Hb]; [subst F; lia |].
  now apply (Hb n p').
Qed.

Lemma parse_loop_progress fuel n : forall exprs p tree p',
  parse_loop fuel n exprs p = Ok (tree, p') ->
  (length (children tree) + tokens_left p' <= length exprs + tokens_left p)%nat.
Proof.
  induction n as [| n IH]; intros exprs p tree p' H; [discriminate H |].
  cbn [parse_loop] in H. destruct (negb _).
  - bind_inv H. apply parse_expr_progress in E.
    specialize (IH _ _ _ _ H). rewrite length_app in IH. cbn in IH. lia.
  - injection H as <- <-. cbn. lia.
Qed.


(** ** What parses can be tokenized *)

Lemma Parser_consume_back p p' :
  Parser_consume p = Ok p' -> lexes_on p' -> lexes_on p.
Proof.
  unfold Parser_consume. intros H Hl. bind_inv H. injection H as <-.
  right. rewrite tokenize_step, E. cbn [bind].
  destruct Hl as [Heof | (toks & s' & Ht)]; cbn [lookahead lexer] in *.
  - rewrite Heof. eauto.
  - destruct (is_EOF t); [eauto |]. rewrite Ht. cbn [bind]. eauto.
Qed.

Lemma Parser_match_back ty p tok p' :
  Parser_match ty p = Ok (tok, p') -> lexes_on p' -> lexes_on p.
Proof.
  intros H. apply Parser_match_Ok in H. destruct H as (_ & _ & H).
  now apply Parser_consume_back.
Qed.

Lemma parse_atom_back p n p' :
  parse_atom p = Ok (n, p') -> lexes_on p' -> lexes_on p.
Proof.
  unfold parse_atom.
  repeat match goal with
         | |- context [TokenType_eqb ?a ?b] => destruct (TokenType_eqb a b)
         end; intros H; try discriminate H;
    bind_inv H; injection H as <- <-; now apply Parser_consume_back.
Qed.

Section RulesBack.
Variable parse_expr_rec : Parser -> result (Node * Parser).
Variable fuel : nat.
Hypothesis rec_back :
  forall p n p', parse_expr_rec p = Ok (n, p') -> lexes_on p' -> lexes_on p.

Lemma exprs_loop_back n : forall exprs p res p',
  exprs_loop parse_expr_rec n exprs p = Ok (res, p') ->
  lexes_on p' -> lexes_on p.
Proof.
  induction n as [| n IH]; intros exprs p res p' H Hl; [discriminate H |].
  cbn [exprs_loop] in H. destruct (negb _).
  - bind_inv H. eapply rec_back; [exact E |]. eapply IH; eauto.
  - now injection H as _ <-.
Qed.

Lemma params_loop_back n : forall params p res p',
  params_loop n params p = Ok (res, p') -> lexes_on p' -> lexes_on p.
Proof.
  induction n as [| n IH]; intros params p res p' H Hl; [discriminate H |].
  cbn [params_loop] in H.
  destruct (TokenType_eqb (Token.type (lookahead p)) IDENT).
  - bind_inv H. eapply Parser_consume_back; [exact E |]. eapply IH; eauto.
  - now injection H as _ <-.
Qed.

Lemma bindings_loop_back n : forall bindings p res p',
  bindings_loop parse_expr_rec n bindings p = Ok (res, p') ->
  lexes_on p' -> lexes_on p.
Proof.
  induction n as [| n IH]; intros bindings p res p' H Hl; [discriminate H |].
  cbn [bindings_loop] in H.
  destruct (TokenType_eqb (Token.type (lookahead p)) IDENT).
  - bind_inv H. bind_inv H.
    eapply Parser_consume_back; [exact E |].
    eapply rec_back; [exact E0 |]. eapply IH; eauto.
  - now injection H as _ <-.
Qed.

Ltac back_chain :=
  repeat match goal with
         | E : Parser_match _ ?p = Ok _ |- lexes_on ?p =>
             eapply Parser_match_back; [exact E |]
         | E : Parser_consume ?p = Ok _ |- lexes_on ?p =>
             eapply Parser_consume_back; [exact E |]
         | E : parse_expr_rec ?p = Ok _ |- lexes_on ?p =>
             eapply rec_back; [exact E |]
         | E : exprs_loop _ _ _ ?p = Ok _ |- lexes_on ?p =>
             eapply exprs_loop_back; [exact E |]
         | E : params_loop _ _ ?p = Ok _ |- lexes_on ?p =>
             eapply params_loop_back; [exact E |]
         | E : bindings_loop _ _ _ ?p = Ok _ |- lexes_on ?p =>
             eapply bindings_loop_back; [exact E |]
         end; try assumption.

Lemma parse_form_back p n p' :
  parse_form parse_expr_rec fuel p = Ok (n, p') -> lexes_on p' -> lexes_on p.
Proof.
  unfold parse_form.
  repeat match goal with
         | |- context [TokenType_eqb ?a ?b] => destruct (TokenType_eqb a b)
         end; intros H Hl.
  - unfold parse_if_expr in H. do 3 bind_inv H.
    destruct (negb _).
    + bind_inv H. injection H as _ <-. back_chain.
    + injection H as _ <-. back_chain.
  - unfold parse_do_expr in H. bind_inv H.
    destruct (TokenType_eqb _ _); [discriminate H |].
    bind_inv H. injection H as _ <-. back_chain.
  - unfold parse_def_expr in H. do 3 bind_inv H.
    injection H as _ <-. back_chain.
  - unfold parse_defn_expr in H. do 6 bind_inv H.
    injection H as _ <-. back_chain.
  - unfold parse_let_expr in H. do 5 bind_inv H.
    injection H as _ <-. back_chain.
  - unfold parse_app_expr in H.
    destruct (negb _); [discriminate H |].
    do 2 bind_inv H. injection H as _ <-. back_chain.
Qed.

Lemma parse_expr_rule_back p n p' :
  parse_expr_rule parse_expr_rec fuel p = Ok (n, p') ->
  lexes_on p' -> lexes_on p.
Proof.
  unfold parse_expr_rule.
  destruct (type_in _ _); [apply parse_atom_back |].
  destruct (TokenType_eqb _ _); [| discriminate].
  unfold parse_list_expr. intros H Hl. do 3 bind_inv H.
  injection H as _ <-.
  eapply Parser_match_back; [exact E |].
  eapply parse_form_back; [exact E0 |].
  eapply Parser_match_back; [exact E1 |]. assumption.
Qed.

End RulesBack.

Lemma parse_expr_back fuel : forall p n p',
  parse_expr fuel p = Ok (n, p') -> lexes_on p' -> lexes_on p.
Proof.
  induction fuel as [| f IH]; intros p n p' H; [discriminate H |].
  cbn [parse_expr] in H. eapply parse_expr_rule_back; eauto.
Qed.

Lemma parse_loop_back fuel n : forall exprs p tree p',
  parse_loop fuel n exprs p = Ok (tree, p') -> lexes_on p.
Proof.
  induction n as [| n IH]; intros exprs p tree p' H; [discriminate H |].
  cbn [parse_loop] in H.
  destruct (TokenType_eqb_spec (Token.type (lookahead p)) EOF) as [E | E];
    cbn [negb] in H.
  - left. unfold is_EOF. rewrite E. reflexivity.
  - bind_inv H. eapply parse_expr_back; [exact E0 |]. eapply IH; eauto.
Qed.

(** X17: a program text that parses can be tokenized: when the parser
    run returns a tree, [tokenize] on the same text returns a token list;
    so a text on which [tokenize] raises a lexical error has no tree. *)
Theorem parsed_text_tokenizes fuel code tree :
  parse_text fuel code = Ok tree ->
  (exists toks s', tokenize (Lexer_init code) = Ok (toks, s')) /\
  (forall e, tokenize (Lexer_init code) <> Raise e).
Proof.
  intros H.
  assert (Hok : exists toks s', tokenize (Lexer_init code) = Ok (toks, s')).
  { unfold parse_text, Parser_init in H.
    apply bind_Ok in H. destruct H as (p0 & H0 & H).
    apply bind_Ok in H0. destruct H0 as ([tok l'] & Hnt & H0).
    injection H0 as <-.
    apply bind_Ok in H. destruct H as ([t q] & Hp & _).
    apply parse_loop_back in Hp.
    rewrite tokenize_step, Hnt. cbn [bind].
    destruct Hp as [Heof | (toks & s' & Ht)]; cbn [lookahead lexer] in *.
    - rewrite Heof. eauto.
    - destruct (is_EOF tok); [eauto |]. rewrite Ht. cbn [bind]. eauto. }
  split; [exact Hok |].
  destruct Hok as (toks & s' & Ht). rewrite Ht. discriminate.
Qed.

End ParserMore.

Lemma tokenize_terminates_witness :
  @tokenize_loop ascii_db 9 [] (Lexer_init (str "(f 1)")) =
  @tokenize ascii_db (Lexer_init (str "(f 1)")).
Proof.
  apply (proj2 (@tokenize_terminates ascii_db (Lexer_init (str "(f 1)")))).
  cbn. lia.
Defined.

Lemma tokenize_blank_witness :
  exists l c s',
    @tokenize ascii_db (Lexer_init (SPACE :: SEMI :: SEMI :: str " note" ++ [NL; TAB])) =
    Ok ([Token.mk EOF (str "<EOF>") l c], s').
Proof.
  apply (@tokenize_blank ascii_db).
  apply blank_space; [reflexivity |].
  apply (blank_comment (str " note") [NL; TAB]).
  - repeat constructor; discriminate.
  - right. eauto.
  - repeat (apply blank_space; [reflexivity |]). apply blank_nil.
Defined.

Lemma next_token_after_EOF_witness :
  @next_token ascii_db (mkLexer (str "a ") 2 1 3) =
  Ok (Token.mk EOF (str "<EOF>") 1 3, mkLexer (str "a ") 2 1 3).
Proof.
  apply (@next_token_after_EOF ascii_db (mkLexer (str "a ") 1 1 2)); reflexivity.
Defined.

Lemma position_tracking_witness :
  pos (consume (Lexer_init [NL; SPACE])) = 1%nat /\
  line (consume (Lexer_init [NL; SPACE])) = 2%Z /\
  column (consume (Lexer_init [NL; SPACE])) = 1%Z /\
  (exists s0,
      skip_whitespace_and_comments 3 (Lexer_init (str " 7")) = Ok s0 /\
      column s0 = 2%Z).
Proof.
  destruct (@position_tracking ascii_db) as (Hconsume & Htok & _).
  destruct (Hconsume (Lexer_init [NL; SPACE])) as (Hp & Hnl & _); [cbn; lia |].
  destruct (Hnl eq_refl) as [Hl Hc].
  destruct (Htok (Lexer_init (str " 7")) (Token.mk INT (str "7") 1 2)
                 (mkLexer (str " 7") 2 1 3) eq_refl)
    as (s0 & Hs0 & _ & Hcol & _).
  repeat split; try assumption.
  exists s0. split; [exact Hs0 | symmetry; exact Hcol].
Defined.

Lemma unterminated_string_position_witness :
  @next_token ascii_db (Lexer_init (str " " ++ DQUOTE :: str "x y"))
  = Raise (ELexer (UnterminatedString 1 2)).
Proof.
  apply (proj1 (@unterminated_string_position ascii_db)
               (Lexer_init (str " " ++ DQUOTE :: str "x y"))
               (mkLexer (str " " ++ DQUOTE :: str "x y") 1 1 2)
               (str " ") (str "x y")).
  - reflexivity.
  - split; reflexivity.
  - cbn. intros H. repeat (destruct H as [H | H]; [discriminate H |]). exact H.
Defined.

Lemma keyword_classification_witness :
  (exists s',
      @next_token ascii_db (Lexer_init (str "  true)")) =
      Ok (Token.mk BOOL (str "true") 1 3, s') /\
      at_cursor s' (str "  " ++ str "true") (str ")")) /\
  (exists s',
      @next_token ascii_db (Lexer_init (str "lets go")) =
      Ok (Token.mk IDENT (str "lets") 1 1, s') /\
      at_cursor s' ([] ++ str "lets") (str " go")).
Proof.
  destruct (@keyword_classification ascii_db) as [Hkw Hid]. split.
  - apply (Hkw "true"%string BOOL (Lexer_init (str "  true)"))
               (mkLexer (str "  true)") 2 1 3) (str "  ") (str ")")).
    + cbn. auto 20.
    + reflexivity.
    + split; reflexivity.
    + reflexivity.
  - apply (Hid (str "lets") (Lexer_init (str "lets go"))
               (Lexer_init (str "lets go")) [] (str " go")).
    + reflexivity.
    + intros kw ty Hin. cbn in Hin.
      repeat (destruct Hin as [Hin | Hin]; [injection Hin as <- <-; discriminate |]).
      contradiction.
    + reflexivity.
    + split; reflexivity.
    + reflexivity.
Defined.

Lemma list_and_defn_arity_witness :
  all_nodes (fun n => list_arity_ok n && defn_shape_ok n) defn_example = true /\
  (exists inside,
      mkNode "ListExpr" None [mkNode "AppExpr" (Some (str "f")) []] =
      mkNode "ListExpr" None [inside]) /\
  (exists name params body,
      Token.type name = IDENT /\ forallb is_param params = true /\
      mkNode "DefnExpr" (Some (str "f"))
        [mkNode "ParamList" None []; leaf "IntLiteral" "1"] =
      mkNode "DefnExpr" (Some (Token.lexeme name))
        [mkNode "ParamList" None params; body]).
Proof.
  destruct (@list_and_defn_arity ascii_db) as (Htree & Hlist & Hdefn).
  split; [| split].
  - apply (Htree 5%nat
             (parser_at (str "(defn f () 1)") 1 LPAREN (str "(") 1)
             defn_example
             (parser_at (str "(defn f () 1)") 13 EOF (str "<EOF>") 14)).
    reflexivity.
  - apply (Hlist (@parse_expr ascii_db 1) 1%nat
             (parser_at (str "(f)") 1 LPAREN (str "(") 1)
             _
             (parser_at (str "(f)") 3 EOF (str "<EOF>") 4)).
    reflexivity.
  - destruct (Hdefn (@parse_expr ascii_db 1) 1%nat
                (parser_at (str "(defn f () 1)") 5 DEFN (str "defn") 2)
                (mkNode "DefnExpr" (Some (str "f"))
                   [mkNode "ParamList" None []; leaf "IntLiteral" "1"])
                (parser_at (str "(defn f () 1)") 13 RPAREN (str ")") 13)
                eq_refl)
      as (t & p1 & name & p2 & params & body & p5 & Hm1 & Hm2 & Hpar & _ & Heq).
    exists name, params, body. repeat split; try assumption.
    apply Parser_match_Ok in Hm2. destruct Hm2 as (Hty & -> & _).
    exact Hty.
Defined.

Lemma if_else_branch_witness :
  @parse_if_expr ascii_db (@parse_expr ascii_db 1)
    (parser_at (str "(if a b)") 3 IF_ (str "if") 2) =
  Ok (mkNode "IfExpr" None [leaf "Identifier" "a"; leaf "Identifier" "b"],
      parser_at (str "(if a b)") 8 RPAREN (str ")") 8) /\
  @parse_text ascii_db 7 (str "(if (< n 10) (print 1) (print 2))") =
  Ok if_example.
Proof.
  destruct (@if_else_branch ascii_db) as (Hif & _ & _ & Hex). split.
  - apply (proj1 (Hif (@parse_expr ascii_db 1)
                      (parser_at (str "(if a b)") 3 IF_ (str "if") 2)
                      (Token.mk IF_ (str "if") 1 2)
                      (parser_at (str "(if a b)") 5 IDENT (str "a") 5)
                      (leaf "Identifier" "a")
                      (parser_at (str "(if a b)") 7 IDENT (str "b") 7)
                      (leaf "Identifier" "b")
                      (parser_at (str "(if a b)") 8 RPAREN (str ")") 8)
                      eq_refl eq_refl eq_refl)).
    reflexivity.
  - apply Hex. cbn. lia.
Defined.

Lemma do_requires_body_witness :
  @parse_text ascii_db 3 (str "(do)") =
  Raise (EParser (mkParserError "mindestens einen Ausdruck erwartet"
                    (Token.mk RPAREN (str ")") 1 4))) /\
  @parse_do_expr ascii_db (@parse_expr ascii_db 1) 1
    (parser_at (str "(do)") 3 DO (str "do") 2) =
  Raise (EParser (mkParserError "mindestens einen Ausdruck erwartet"
                    (Token.mk RPAREN (str ")") 1 4))) /\
  all_nodes do_arity_ok defn_example = true.
Proof.
  destruct (@do_requires_body ascii_db) as (Hex & Hdo & Htree).
  split; [| split].
  - apply Hex. cbn. lia.
  - apply (Hdo (@parse_expr ascii_db 1) 1%nat
             (parser_at (str "(do)") 3 DO (str "do") 2)
             (Token.mk DO (str "do") 1 2)
             (parser_at (str "(do)") 4 RPAREN (str ")") 4));
      reflexivity.
  - apply (Htree 5%nat
             (parser_at (str "(defn f () 1)") 1 LPAREN (str "(") 1)
             defn_example
             (parser_at (str "(defn f () 1)") 13 EOF (str "<EOF>") 14)).
    reflexivity.
Defined.

Lemma missing_rparen_witness :
  @parse_text ascii_db 6 (str "(+ 1 2") =
  Raise (EParser (mkParserError "erwartet RPAREN"
                    (Token.mk EOF (str "<EOF>") 1 7))) /\
  @parse_list_expr ascii_db (@parse_expr ascii_db 1) 1
    (parser_at (str "(f") 1 LPAREN (str "(") 1) =
  Raise (EParser (mkParserError "erwartet RPAREN"
                    (Token.mk EOF (str "<EOF>") 1 3))).
Proof.
  destruct (@missing_rparen ascii_db) as (Hex & Hlist). split.
  - apply Hex. cbn. lia.
  - apply (Hlist (@parse_expr ascii_db 1) 1%nat
             (parser_at (str "(f") 1 LPAREN (str "(") 1)
             (Token.mk LPAREN (str "(") 1 1)
             (parser_at (str "(f") 2 IDENT (str "f") 2)
             (mkNode "AppExpr" (Some (str "f")) [])
             (parser_at (str "(f") 2 EOF (str "<EOF>") 3));
      reflexivity.
Defined.

Lemma lexeme_is_source_text_witness :
  (exists rest',
      str "foo)" = source_of (Token.mk IDENT (str "foo") 1 2) ++ rest' /\
      at_cursor (mkLexer (str " foo)") 4 1 5)
        (str " " ++ source_of (Token.mk IDENT (str "foo") 1 2)) rest' /\
      (IDENT <> EOF -> source_of (Token.mk IDENT (str "foo") 1 2) <> [])) /\
  1%Z = 1%Z /\ 2%Z = 2%Z.
Proof.
  apply (@lexeme_is_source_text ascii_db (Lexer_init (str " foo)"))
           (mkLexer (str " foo)") 1 1 2)
           (Token.mk IDENT (str "foo") 1 2)
           (mkLexer (str " foo)") 4 1 5) (str " ") (str "foo)"));
    [reflexivity | reflexivity | split; reflexivity].
Defined.

Lemma token_well_formed_witness :
  @token_ok ascii_db (Token.mk INT (str "42") 1 2) = true /\
  @stops_at ascii_db (Token.mk INT (str "42") 1 2)
    (peek (mkLexer (str " 42)") 3 1 4)) = true.
Proof.
  apply (@token_well_formed ascii_db (Lexer_init (str " 42)"))).
  reflexivity.
Defined.

Lemma integer_literal_witness :
  exists s',
    @next_token ascii_db (Lexer_init (str " 007+")) =
    Ok (Token.mk INT (str "007") 1 2, s') /\
    at_cursor s' (str " " ++ str "007") (str "+").
Proof.
  apply (@integer_literal ascii_db (Lexer_init (str " 007+"))
           (mkLexer (str " 007+") 1 1 2) (str " ") (ch "0") (str "07") (str "+"));
    [reflexivity | split; reflexivity | reflexivity | reflexivity].
Defined.


Lemma unexpected_character_witness :
  @next_token ascii_db (Lexer_init (str " ; x")) =
  Raise (ELexer (UnexpectedChar SEMI 1 2)) /\
  exists s0,
    skip_whitespace_and_comments 5 (Lexer_init (str " #")) = Ok s0 /\
    peek s0 = ch "#" /\ line s0 = 1%Z /\ column s0 = 2%Z /\
    ch "#" <> NUL /\ punctuation (ch "#") = None /\
    @isdigit ascii_db (ch "#") = false /\
    ch "#" <> DQUOTE /\ @is_ident_start ascii_db (ch "#") = false.
Proof.
  split.
  - apply (proj2 (@unexpected_character ascii_db (Lexer_init (str " ; x")) SEMI 1 2)
                 (mkLexer (str " ; x") 1 1 2) (str " ") (str " x"));
      [reflexivity | split; reflexivity].
  - apply (proj1 (proj1 (@unexpected_character ascii_db (Lexer_init (str " #"))
                           (ch "#") 1 2))).
    reflexivity.
Defined.

Lemma position_invariant_witness :
  positioned (consume (Lexer_init (NL :: str "ab"))) /\
  positioned (mkLexer (NL :: str " ab") 4 2 4) /\
  snd (line_col (str "ab")) = 3%Z /\
  snd (line_col (str "x" ++ NL :: str "ab")) = 3%Z.
Proof.
  destruct (@position_invariant ascii_db) as (Hinit & Hcons & Hnext & _ & Hcol0 & Hcol).
  split; [| split; [| split]].
  - apply Hcons, Hinit.
  - apply (Hnext (Lexer_init (NL :: str " ab")) (Token.mk IDENT (str "ab") 2 2)
                 (mkLexer (NL :: str " ab") 4 2 4) (Hinit _) eq_refl).
  - apply (Hcol0 (str "ab")). cbn. intros H.
    repeat (destruct H as [H | H]; [discriminate H |]). exact H.
  - apply (Hcol (str "x") (str "ab")). cbn. intros H.
    repeat (destruct H as [H | H]; [discriminate H |]). exact H.
Defined.

Lemma tokenize_bound_witness :
  (length [Token.mk IDENT (str "a") 1 1; Token.mk EOF (str "<EOF>") 1 2]
   <= S (remaining (Lexer_init (str "a"))))%nat /\
  text (mkLexer (str "a") 1 1 2) = text (Lexer_init (str "a")) /\
  (pos (Lexer_init (str "a")) <= pos (mkLexer (str "a") 1 1 2))%nat /\
  peek (mkLexer (str "a") 1 1 2) = NUL.
Proof.
  apply (@tokenize_bound ascii_db (Lexer_init (str "a"))). reflexivity.
Defined.


Lemma parse_reads_all_witness :
  EOF = EOF /\
  exists exprs,
    defn_example = mkNode "Program" None exprs /\
    (exprs = [] <-> LPAREN = EOF) /\
    (exprs = [] ->
     parser_at (str "(defn f () 1)") 13 EOF (str "<EOF>") 14 =
     parser_at (str "(defn f () 1)") 1 LPAREN (str "(") 1).
Proof.
  apply (@parse_reads_all ascii_db 5%nat
           (parser_at (str "(defn f () 1)") 1 LPAREN (str "(") 1)
           defn_example
           (parser_at (str "(defn f () 1)") 13 EOF (str "<EOF>") 14)).
  reflexivity.
Defined.

Lemma parse_blank_program_witness :
  @parse_text ascii_db 1 (SPACE :: SEMI :: SEMI :: str " note" ++ [NL; TAB]) =
  Ok (mkNode "Program" None []).
Proof.
  apply (@parse_blank_program ascii_db); [| cbn; lia].
  apply blank_space; [reflexivity |].
  apply (blank_comment (str " note") [NL; TAB]).
  - repeat constructor; discriminate.
  - right. eauto.
  - repeat (apply blank_space; [reflexivity |]). apply blank_nil.
Defined.

Lemma tree_kinds_witness :
  all_nodes kind_ok if_example = true /\
  kind_in ["IntLiteral"; "StringLiteral"; "BoolLiteral"; "Identifier";
           "ListExpr"]%string (leaf "Identifier" "a") = true.
Proof.
  destruct (@tree_kinds ascii_db) as [Htree Hexpr]. split.
  - apply (Htree 5%nat
             (parser_at (str "(if (< n 10) (print 1) (print 2))") 1 LPAREN (str "(") 1)
             if_example
             (parser_at (str "(if (< n 10) (print 1) (print 2))") 33 EOF (str "<EOF>") 34)).
    reflexivity.
  - apply (Hexpr 1%nat (parser_at (str "a b") 1 IDENT (str "a") 1)
                 (leaf "Identifier" "a")
                 (parser_at (str "a b") 3 IDENT (str "b") 3)).
    reflexivity.
Defined.

Lemma no_rule_errors_witness :
  @parse_expr ascii_db 1 (parser_at (str ")") 1 RPAREN (str ")") 1) =
  Raise (EParser (mkParserError "Ausdruck erwartet"
                    (Token.mk RPAREN (str ")") 1 1))) /\
  @parse_list_expr ascii_db (@parse_expr ascii_db 1) 1
    (parser_at (str "()") 1 LPAREN (str "(") 1) =
  Raise (EParser (mkParserError "Operator oder Funktionsname erwartet"
                    (Token.mk RPAREN (str ")") 1 2))).
Proof.
  destruct (@no_rule_errors ascii_db) as [Hexpr Hlist]. split.
  - apply (Hexpr 0%nat (parser_at (str ")") 1 RPAREN (str ")") 1)). reflexivity.
  - apply (Hlist (@parse_expr ascii_db 1) 1%nat
             (parser_at (str "()") 1 LPAREN (str "(") 1)
             (Token.mk LPAREN (str "(") 1 1)
             (parser_at (str "()") 2 RPAREN (str ")") 2));
      reflexivity.
Defined.


Lemma tokenize_round_trip_witness :
  interleaved [Token.mk IDENT (str "a") 1 2; Token.mk EOF (str "<EOF>") 1 4]
              (str " a ").
Proof.
  apply (@tokenize_round_trip ascii_db (str " a ") _ (mkLexer (str " a ") 3 1 4)).
  - reflexivity.
  - cbn. intros H. repeat (destruct H as [H | H]; [discriminate H |]). exact H.
Defined.

Lemma kind_fixes_lexeme_witness :
  str "defn" = str "defn" /\
  (DEFN = BOOL -> str "defn" = str "true" \/ str "defn" = str "false").
Proof.
  destruct (@kind_fixes_lexeme ascii_db (Lexer_init (str "defn f"))
              (Token.mk DEFN (str "defn") 1 1) (mkLexer (str "defn f") 4 1 5)
              eq_refl) as [Hkw Hbool].
  split; [| exact Hbool].
  apply (Hkw "defn"%string DEFN); [cbn; auto 20 | discriminate | reflexivity].
Defined.

Lemma parsed_text_tokenizes_witness :
  (exists toks s', @tokenize ascii_db (Lexer_init (str "(defn f () 1)")) = Ok (toks, s')) /\
  (forall e, @tokenize ascii_db (Lexer_init (str "(defn f () 1)")) <> Raise e).
Proof.
  apply (@parsed_text_tokenizes ascii_db 5%nat (str "(defn f () 1)") defn_example).
  reflexivity.
Defined.

Lemma tokenize_unroll_witness :
  @tokenize_loop ascii_db 7 [Token.mk LPAREN (str "(") 1 1] (mkLexer (str "(a") 1 1 2) =
  ('(toks, s') <- @tokenize ascii_db (mkLexer (str "(a") 1 1 2) ;;
   Ok ([Token.mk LPAREN (str "(") 1 1] ++ toks, s')).
Proof.
  apply (proj2 (@tokenize_unroll ascii_db (mkLexer (str "(a") 1 1 2))).
  cbn. lia.
Defined.
